(** * Statsite sink of go-metrics: a shallow embedding and its properties

    The development follows the Go package [statsite] (one [Sink] per
    destination, a buffered channel of formatted lines, one background
    goroutine [flushMetrics]).

    - [GoStrings]: the parts of package [strings] and [fmt] the sink calls.
    - [GoChan]: buffered channels (send, receive, close; nil and closed
      channels).
    - [Bufio]: [bufio.Writer] over a connection whose writes may fail.
    - [Statsite]: the sink, its methods, the worker goroutine as a
      transition system driven by a schedule of actions.

    Conventions.  A Go string is modelled by the sequence of characters
    that [range] yields over it ([string]); [[]byte(s)] is
    [list_byte_of_string].  A [float32] is a [spec_float] valid for
    precision 24 and maximal exponent 128.  Goroutines interleave at the
    granularity of one channel operation, one dial, one buffered write or
    one flush; which [select] case fires, whether a dial or a write to the
    connection succeeds and how time passes are inputs of the step
    function. *)

From Stdlib Require Import List Strings.String Strings.Ascii Strings.Byte Bool Arith NArith ZArith Lia.
From Stdlib Require Import DecimalString DecimalN.
From Stdlib Require Import Floats.SpecFloat.
Import ListNotations.

(* ------------------------------------------------------------------ *)
(** * Strings and formatting                                            *)
(* ------------------------------------------------------------------ *)

Module GoStrings.

Local Open Scope string_scope.

(** [strings.Join(elems, sep)]. *)
Fixpoint Join (elems : list string) (sep : string) : string :=
  match elems with
  | [] => EmptyString
  | [x] => x
  | x :: rest => x ++ sep ++ Join rest sep
  end.

(** [strings.Map(mapping, s)] for a mapping that never returns a negative
    rune: every character is replaced by its image. *)
Fixpoint Map (mapping : ascii -> ascii) (s : string) : string :=
  match s with
  | EmptyString => EmptyString
  | String r rest => String (mapping r) (Map mapping rest)
  end.

(** The line feed ["\n"]. *)
Definition LF : string := String "010"%char EmptyString.

(** ** The verb [%f] on a [float32] *)

Definition float32 := spec_float.

(** Well-formed binary32 values: 24 bits of precision, infinities at 2^128. *)
Definition is_float32 (v : float32) : bool := valid_binary 24 128 v.

Definition is_finite (v : float32) : bool :=
  match v with
  | S754_zero _ | S754_finite _ _ _ => true
  | S754_infinity _ | S754_nan => false
  end.

(** Nearest integer to [num / den], ties to the even one ([decimal.Round]
    on an exact decimal expansion). *)
Definition round_half_even (num den : N) : N :=
  let q := (num / den)%N in
  let r := (num mod den)%N in
  if (den <? 2 * r)%N then (q + 1)%N
  else if (2 * r =? den)%N && N.odd q then (q + 1)%N
  else q.

Definition digit_char (d : N) : ascii :=
  ascii_of_N (48 + d mod 10).

(** The [w] low decimal digits of [n], most significant first, padded
    with zeros. *)
Fixpoint fixed_digits (w : nat) (n : N) : string :=
  match w with
  | O => EmptyString
  | S w' => fixed_digits w' (n / 10) ++ String (digit_char n) EmptyString
  end.

(** Decimal numeral of [n] without leading zeros (["0"] for zero). *)
Definition decimal (n : N) : string :=
  NilEmpty.string_of_uint (N.to_uint n).

(** [prec] is 6 when the verb gives none. *)
Definition default_prec : nat := 6.

(** The value [m * 2^e] scaled by [10^6] and rounded to an integer. *)
Definition scaled_micro (m : positive) (e : Z) : N :=
  let num := (Npos m * 10 ^ N.of_nat default_prec * 2 ^ Z.to_N e)%N in
  let den := (2 ^ Z.to_N (- e))%N in
  round_half_even num den.

Definition fmtF (neg : bool) (q : N) : string :=
  (if neg then "-" else EmptyString) ++
  decimal (q / 10 ^ N.of_nat default_prec) ++ "." ++
  fixed_digits default_prec q.

(** [fmt.Sprintf("%f", v)]: sign, integer part, a point, six digits; the
    non-finite values print as words. *)
Definition fmt_f (v : float32) : string :=
  match v with
  | S754_nan => "NaN"
  | S754_infinity false => "+Inf"
  | S754_infinity true => "-Inf"
  | S754_zero s => fmtF s 0
  | S754_finite s m e => fmtF s (scaled_micro m e)
  end.

(** Some binary32 constants, in canonical form. *)
Definition f32_3_5 : float32 := S754_finite false 14680064 (-22).
Definition f32_1 : float32 := S754_finite false 8388608 (-23).
Definition f32_0_0078125 : float32 := S754_finite false 8388608 (-30).
Definition f32_neg_0_1 : float32 := S754_finite true 13421773 (-27).

End GoStrings.

(* ------------------------------------------------------------------ *)
(** * Buffered channels of strings                                      *)
(* ------------------------------------------------------------------ *)

Module GoChan.

(** Run-time panics the sink can raise. *)
Inductive GoPanic :=
  | SendOnClosedChannel
  | CloseOfClosedChannel
  | CloseOfNilChannel
  | NilPointerDereference.

(** Result of one operation of a goroutine: it completes, it cannot
    proceed in this state, or it panics. *)
Inductive Outcome (A : Type) :=
  | Ok (a : A)
  | Blocked
  | Panic (p : GoPanic).

Arguments Ok {A} a.
Arguments Blocked {A}.
Arguments Panic {A} p.

Record Chan := mkChan {
  items : list string;      (* buffered elements, oldest first *)
  capacity : nat;
  closed : bool
}.

(** A channel variable; [None] is the nil channel. *)
Definition chanref := option Chan.

(** [make(chan string, n)]. *)
Definition make (n : nat) : chanref :=
  Some (mkChan [] n false).

(** [c <- m]. *)
Definition send (c : chanref) (m : string) : Outcome chanref :=
  match c with
  | None => Blocked
  | Some ch =>
      if closed ch then Panic SendOnClosedChannel
      else if List.length (items ch) <? capacity ch
      then Ok (Some (mkChan (items ch ++ [m]) (capacity ch) (closed ch)))
      else Blocked
  end.

(** [m, ok := <-c]. *)
Definition recv (c : chanref) : Outcome (chanref * (string * bool)) :=
  match c with
  | None => Blocked
  | Some ch =>
      match items ch with
      | m :: rest => Ok (Some (mkChan rest (capacity ch) (closed ch)), (m, true))
      | [] => if closed ch then Ok (c, (EmptyString, false)) else Blocked
      end
  end.

(** [close(c)]. *)
Definition close (c : chanref) : Outcome chanref :=
  match c with
  | None => Panic CloseOfNilChannel
  | Some ch =>
      if closed ch then Panic CloseOfClosedChannel
      else Ok (Some (mkChan (items ch) (capacity ch) true))
  end.

(** [len(c)]. *)
Definition len (c : chanref) : nat :=
  match c with
  | None => 0
  | Some ch => List.length (items ch)
  end.

End GoChan.

(* ------------------------------------------------------------------ *)
(** * Connections and [bufio.Writer]                                    *)
(* ------------------------------------------------------------------ *)

Module Bufio.

(** What the peer of each connection has received, by connection number. *)
Definition Net := list (list byte).

(** How the connection answers one [Write]: everything is sent, or the
    write fails after [n] bytes went out. *)
Inductive IOResp :=
  | WriteAll
  | WriteFail (n : nat).

Fixpoint deliver (nw : Net) (c : nat) (p : list byte) : Net :=
  match nw, c with
  | [], _ => []
  | r :: rest, O => (r ++ p) :: rest
  | r :: rest, S c' => r :: deliver rest c' p
  end.

(** [conn.Write(p)]: the new network, the count written, whether it
    failed. *)
Definition conn_Write (nw : Net) (c : nat) (p : list byte) (r : IOResp)
  : Net * nat * bool :=
  match r with
  | WriteAll => (deliver nw c p, List.length p, false)
  | WriteFail n =>
      let n' := Nat.min n (List.length p) in
      (deliver nw c (firstn n' p), n', true)
  end.

(** The answers still to come; a missing answer is a success. *)
Definition next_resp (rs : list IOResp) : IOResp * list IOResp :=
  match rs with
  | [] => (WriteAll, [])
  | r :: rs' => (r, rs')
  end.

Definition defaultBufSize : nat := 4096.

Record Writer := mkWriter {
  wr : nat;               (* the connection written to *)
  buf : list byte;        (* b.buf[0:b.n] *)
  err : bool              (* b.err != nil *)
}.

Definition NewWriter (c : nat) : Writer := mkWriter c [] false.

Definition Available (b : Writer) : nat := defaultBufSize - List.length (buf b).
Definition Buffered (b : Writer) : nat := List.length (buf b).

(** [b.Flush()]. *)
Definition Flush (b : Writer) (nw : Net) (rs : list IOResp)
  : Writer * Net * list IOResp * bool :=
  if err b then (b, nw, rs, true)
  else if Buffered b =? 0 then (b, nw, rs, false)
  else
    let '(r, rs') := next_resp rs in
    let '(nw', n, e) := conn_Write nw (wr b) (buf b) r in
    if e || (n <? Buffered b)
    then (mkWriter (wr b) (skipn n (buf b)) true, nw', rs', true)
    else (mkWriter (wr b) [] false, nw', rs', false).

(** The loop at the head of [b.Write(p)]; [None] when [fuel] iterations
    do not reach its exit. *)
Fixpoint Write_loop (fuel : nat) (b : Writer) (nw : Net) (rs : list IOResp)
  (p : list byte) : option (Writer * Net * list IOResp * list byte) :=
  if (Available b <? List.length p) && negb (err b) then
    match fuel with
    | O => None
    | S fuel' =>
        if Buffered b =? 0 then
          let '(r, rs') := next_resp rs in
          let '(nw', n, e) := conn_Write nw (wr b) p r in
          Write_loop fuel' (mkWriter (wr b) (buf b) e) nw' rs' (skipn n p)
        else
          let n := Nat.min (Available b) (List.length p) in
          let '(b', nw', rs', _) :=
            Flush (mkWriter (wr b) (buf b ++ firstn n p) (err b)) nw rs in
          Write_loop fuel' b' nw' rs' (skipn n p)
    end
  else Some (b, nw, rs, p).

(** Iterations granted to the loop; [Write_loop_exits] shows they
    suffice. *)
Definition Write_fuel : nat := 2.

(** [b.Write(p)]. *)
Definition Write (b : Writer) (nw : Net) (rs : list IOResp) (p : list byte)
  : option (Writer * Net * list IOResp * bool) :=
  match Write_loop Write_fuel b nw rs p with
  | None => None
  | Some (b', nw', rs', p') =>
      if err b' then Some (b', nw', rs', true)
      else Some (mkWriter (wr b') (buf b' ++ p') false, nw', rs', false)
  end.

End Bufio.

(* ------------------------------------------------------------------ *)
(** * The sink                                                          *)
(* ------------------------------------------------------------------ *)

Module Statsite.

Import GoStrings GoChan Bufio.
Local Open Scope string_scope.
Local Open Scope list_scope.

(** [time.Duration] counts nanoseconds. *)
Definition Millisecond : N := 1000000.
Definition Second : N := 1000 * Millisecond.

(** We force flush the statsite metrics after this period of inactivity. *)
Definition flushInterval : N := 100 * Millisecond.

(** Modelled from the spec: [metrics.Label], declared in the parent
    package, outside these sources; a (name, value) pair of strings, of
    which formatting uses the value only. *)
Record Label := mkLabel { Name : string; Value : string }.

Record Sink := mkSink {
  addr : string;
  metricQueue : chanref
}.

(** Flattens the key for formatting, removes spaces. *)
Definition flattenKey (parts : list string) : string :=
  let joined := Join parts "." in
  Map (fun r =>
         if (r =? ":")%char then "_"%char
         else if (r =? " ")%char then "_"%char
         else r) joined.

(** Flattens the key along with labels for formatting, removes spaces. *)
Definition flattenKeyLabels (parts : list string) (labels : list Label) : string :=
  let parts := fold_left (fun parts label => parts ++ [Value label]) labels parts in
  flattenKey parts.

(** Does a non-blocking push to the metrics queue: a [select] with one
    send case and a [default]. *)
Definition pushMetric (s : Sink) (m : string) : Outcome Sink :=
  match send (metricQueue s) m with
  | Ok q => Ok (mkSink (addr s) q)
  | Blocked => Ok s
  | Panic p => Panic p
  end.

(** [fmt.Sprintf("%s:%f|<suffix>\n", flatKey, val)]. *)
Definition Sprintf_metric (suffix : string) (flatKey : string) (val : float32) : string :=
  (flatKey ++ ":" ++ fmt_f val ++ "|" ++ suffix ++ LF)%string.

Definition SetGauge (s : Sink) (key : list string) (val : float32) :=
  let flatKey := flattenKey key in
  pushMetric s (Sprintf_metric "g" flatKey val).

Definition SetGaugeWithLabels (s : Sink) (key : list string) (val : float32)
  (labels : list Label) :=
  let flatKey := flattenKeyLabels key labels in
  pushMetric s (Sprintf_metric "g" flatKey val).

Definition EmitKey (s : Sink) (key : list string) (val : float32) :=
  let flatKey := flattenKey key in
  pushMetric s (Sprintf_metric "kv" flatKey val).

Definition IncrCounter (s : Sink) (key : list string) (val : float32) :=
  let flatKey := flattenKey key in
  pushMetric s (Sprintf_metric "c" flatKey val).

Definition IncrCounterWithLabels (s : Sink) (key : list string) (val : float32)
  (labels : list Label) :=
  let flatKey := flattenKeyLabels key labels in
  pushMetric s (Sprintf_metric "c" flatKey val).

Definition AddSample (s : Sink) (key : list string) (val : float32) :=
  let flatKey := flattenKey key in
  pushMetric s (Sprintf_metric "ms" flatKey val).

Definition AddSampleWithLabels (s : Sink) (key : list string) (val : float32)
  (labels : list Label) :=
  let flatKey := flattenKeyLabels key labels in
  pushMetric s (Sprintf_metric "ms" flatKey val).

(** Shutdown is used to stop flushing to statsite. *)
Definition Shutdown (s : Sink) : Outcome Sink :=
  match close (metricQueue s) with
  | Ok q => Ok (mkSink (addr s) q)
  | Blocked => Blocked
  | Panic p => Panic p
  end.

(** ** The goroutine [flushMetrics] *)

(** Where the goroutine stands: before its first statement, at one of
    its labels, inside the streaming loop, or returned. *)
Inductive Label_pc := START | CONNECT | STREAM | WAIT | QUIT | DONE.

Inductive LogLine :=
  | ErrConnecting   (* "[ERR] Error connecting to statsite! Err: %s" *)
  | ErrWriting      (* "[ERR] Error writing to statsite! Err: %s" *)
  | ErrFlushing.    (* "[ERR] Error flushing to statsite! Err: %s" *)

Record Worker := mkWorker {
  pc : Label_pc;
  sock : option nat;            (* var sock net.Conn *)
  buffered : option Writer;     (* var buffered *bufio.Writer *)
  wait : option N;              (* var wait <-chan time.Time: when it fires *)
  ticker_on : bool;             (* ticker running *)
  ticker_at : N;                (* next tick *)
  ticker_C : bool               (* a tick is waiting in ticker.C *)
}.

(** What is outside the sink: the clock, the peers, the dials made, the
    log. *)
Record World := mkWorld {
  now : N;
  net : Net;
  dialed : list string;
  logged : list LogLine
}.

(** The program state.  [history] records, oldest first, the lines the
    queue accepted; no operation reads it. *)
Record State := mkState {
  sink : Sink;
  worker : Worker;
  world : World;
  history : list string
}.

(** New is used to create a new Sink: the sink (never nil), the error
    (always nil), with the goroutine spawned. *)
Definition NewSink (addr : string) (w : World) : option State * option string :=
  let s := mkSink addr (make 4096) in
  (Some (mkState s (mkWorker START None None None false 0 false) w []), None).

(** Calls of the instrumented application. *)
Inductive Call :=
  | CSetGauge (key : list string) (val : float32)
  | CSetGaugeWithLabels (key : list string) (val : float32) (labels : list Label)
  | CEmitKey (key : list string) (val : float32)
  | CIncrCounter (key : list string) (val : float32)
  | CIncrCounterWithLabels (key : list string) (val : float32) (labels : list Label)
  | CAddSample (key : list string) (val : float32)
  | CAddSampleWithLabels (key : list string) (val : float32) (labels : list Label)
  | CShutdown.

Definition invoke (s : Sink) (c : Call) : Outcome Sink :=
  match c with
  | CSetGauge key val => SetGauge s key val
  | CSetGaugeWithLabels key val labels => SetGaugeWithLabels s key val labels
  | CEmitKey key val => EmitKey s key val
  | CIncrCounter key val => IncrCounter s key val
  | CIncrCounterWithLabels key val labels => IncrCounterWithLabels s key val labels
  | CAddSample key val => AddSample s key val
  | CAddSampleWithLabels key val labels => AddSampleWithLabels s key val labels
  | CShutdown => Shutdown s
  end.

Definition is_emit (c : Call) : bool :=
  match c with
  | CShutdown => false
  | _ => true
  end.

(** The lines a call adds to the queue: the difference of the queue
    contents across the call. *)
Definition newly_queued (before after : Sink) : list string :=
  skipn (len (metricQueue before)) (match metricQueue after with
                                    | Some ch => items ch
                                    | None => []
                                    end).

(** Steps of the goroutine: which ready case of a [select] fires, the
    result of a dial, the answers of the connection. *)
Inductive WorkerEv :=
  | EvStart
  | EvDial (ok : bool)
  | EvRecv (rs : list IOResp)
  | EvTick (rs : list IOResp)
  | EvTimeout
  | EvReturn.

Inductive Action :=
  | App (c : Call)
  | Work (e : WorkerEv)
  | Elapse (d : N).

Definition set_pc (w : Worker) (l : Label_pc) : Worker :=
  mkWorker l (sock w) (buffered w) (wait w) (ticker_on w) (ticker_at w) (ticker_C w).

(** [goto WAIT]: the label arms a timer of five seconds. *)
Definition goto_WAIT (w : Worker) (t : N) : Worker :=
  mkWorker WAIT (sock w) (buffered w) (Some (t + 5 * Second)%N)
    (ticker_on w) (ticker_at w) (ticker_C w).

Definition add_log (w : World) (l : LogLine) : World :=
  mkWorld (now w) (net w) (dialed w) (logged w ++ [l]).

Definition set_net (w : World) (nw : Net) : World :=
  mkWorld (now w) nw (dialed w) (logged w).

Definition worker_step (st : State) (e : WorkerEv) : Outcome State :=
  let s := sink st in
  let wk := worker st in
  let wd := world st in
  match pc wk, e with
  | START, EvStart =>
      (* ticker := time.NewTicker(flushInterval) *)
      Ok (mkState s
            (mkWorker CONNECT (sock wk) (buffered wk) (wait wk)
               true (now wd + flushInterval)%N false)
            wd (history st))
  | CONNECT, EvDial ok =>
      let wd := mkWorld (now wd) (net wd) (dialed wd ++ [addr s]) (logged wd) in
      if ok then
        let c := List.length (net wd) in
        Ok (mkState s
              (mkWorker STREAM (Some c) (Some (NewWriter c)) (wait wk)
                 (ticker_on wk) (ticker_at wk) (ticker_C wk))
              (set_net wd (net wd ++ [[]])) (history st))
      else
        Ok (mkState s
              (goto_WAIT (mkWorker (pc wk) None (buffered wk) (wait wk)
                            (ticker_on wk) (ticker_at wk) (ticker_C wk)) (now wd))
              (add_log wd ErrConnecting) (history st))
  | STREAM, EvRecv rs =>
      match recv (metricQueue s) with
      | Blocked => Blocked
      | Panic p => Panic p
      | Ok (q, (metric, ok)) =>
          if negb ok then Ok (mkState s (set_pc wk QUIT) wd (history st))
          else
            let s := mkSink (addr s) q in
            match buffered wk with
            | None => Panic NilPointerDereference
            | Some b =>
                match Write b (net wd) rs (list_byte_of_string metric) with
                | None => Blocked
                | Some (b', nw, _, failed) =>
                    let wk := mkWorker (pc wk) (sock wk) (Some b') (wait wk)
                                (ticker_on wk) (ticker_at wk) (ticker_C wk) in
                    let wd := set_net wd nw in
                    if failed
                    then Ok (mkState s (goto_WAIT wk (now wd))
                               (add_log wd ErrWriting) (history st))
                    else Ok (mkState s wk wd (history st))
                end
            end
      end
  | STREAM, EvTick rs =>
      if ticker_C wk then
        match buffered wk with
        | None => Panic NilPointerDereference
        | Some b =>
            let '(b', nw, _, failed) := Flush b (net wd) rs in
            let wk := mkWorker (pc wk) (sock wk) (Some b') (wait wk)
                        (ticker_on wk) (ticker_at wk) false in
            let wd := set_net wd nw in
            if failed
            then Ok (mkState s (goto_WAIT wk (now wd))
                       (add_log wd ErrFlushing) (history st))
            else Ok (mkState s wk wd (history st))
        end
      else Blocked
  | WAIT, EvRecv _ =>
      (* Dequeue the messages to avoid backlog *)
      match recv (metricQueue s) with
      | Blocked => Blocked
      | Panic p => Panic p
      | Ok (q, (_, ok)) =>
          if negb ok then Ok (mkState s (set_pc wk QUIT) wd (history st))
          else Ok (mkState (mkSink (addr s) q) wk wd (history st))
      end
  | WAIT, EvTimeout =>
      match wait wk with
      | Some t => if (t <=? now wd)%N
                  then Ok (mkState s (set_pc wk CONNECT) wd (history st))
                  else Blocked
      | None => Blocked
      end
  | QUIT, EvReturn =>
      (* s.metricQueue = nil, then the deferred ticker.Stop() *)
      Ok (mkState (mkSink (addr s) None)
            (mkWorker DONE (sock wk) (buffered wk) (wait wk)
               false (ticker_at wk) (ticker_C wk))
            wd (history st))
  | _, _ => Blocked
  end.

(** Time passes: the clock moves and a running ticker leaves at most one
    tick in its channel. *)
Definition elapse (st : State) (d : N) : State :=
  let wk := worker st in
  let wd := world st in
  let t := (now wd + d)%N in
  let wk' :=
    if ticker_on wk && (ticker_at wk <=? t)%N
    then mkWorker (pc wk) (sock wk) (buffered wk) (wait wk) true
           (ticker_at wk + flushInterval * ((t - ticker_at wk) / flushInterval + 1))%N
           true
    else wk in
  mkState (sink st) wk' (mkWorld t (net wd) (dialed wd) (logged wd)) (history st).

Definition step (st : State) (a : Action) : Outcome State :=
  match a with
  | App c =>
      match invoke (sink st) c with
      | Ok s' => Ok (mkState s' (worker st) (world st)
                       (history st ++ newly_queued (sink st) s'))
      | Blocked => Blocked
      | Panic p => Panic p
      end
  | Work e => worker_step st e
  | Elapse d => Ok (elapse st d)
  end.

(** A schedule runs until an action cannot proceed or panics. *)
Fixpoint run (st : State) (acts : list Action) : Outcome State :=
  match acts with
  | [] => Ok st
  | a :: rest =>
      match step st a with
      | Ok st' => run st' rest
      | Blocked => Blocked
      | Panic p => Panic p
      end
  end.

Definition fresh_world (t : N) : World := mkWorld t [] [] [].

(** The states a program reaches after creating a sink for [a] at time
    [t]. *)
Definition reachable (a : string) (t : N) (st : State) : Prop :=
  exists st0 acts,
    fst (NewSink a (fresh_world t)) = Some st0 /\ run st0 acts = Ok st.

End Statsite.

(* ------------------------------------------------------------------ *)
(** * Vocabulary of the statements                                      *)
(* ------------------------------------------------------------------ *)

Module Props.

Import GoStrings GoChan Bufio Statsite.
Local Open Scope string_scope.
Local Open Scope list_scope.

(** ** Shape of a rendered value *)

Definition is_digit (c : ascii) : bool :=
  ((48 <=? nat_of_ascii c) && (nat_of_ascii c <=? 57))%nat.

Fixpoint all_digits (s : string) : bool :=
  match s with
  | EmptyString => true
  | String c r => is_digit c && all_digits r
  end.

(** The text before and after the first point. *)
Fixpoint split_point (s : string) : option (string * string) :=
  match s with
  | EmptyString => None
  | String c r =>
      if (c =? ".")%char then Some (EmptyString, r)
      else match split_point r with
           | Some (a, b) => Some (String c a, b)
           | None => None
           end
  end.

Definition strip_sign (s : string) : string :=
  match s with
  | String c r => if (c =? "-")%char then r else s
  | EmptyString => s
  end.

(** An optional minus sign, at least one digit, a point, exactly six
    digits. *)
Definition is_fixed_point6 (s : string) : bool :=
  match split_point (strip_sign s) with
  | Some (ip, fp) =>
      negb (String.length ip =? 0)%nat && all_digits ip &&
      (String.length fp =? 6)%nat && all_digits fp
  | None => false
  end.

(** The replacement [flattenKey] applies to each character. *)
Definition underscore (r : ascii) : ascii :=
  if (r =? ":")%char || (r =? " ")%char then "_"%char else r.

(** The line an emit call formats, as the wire protocol spells it. *)
Definition rendered (c : Call) : option string :=
  match c with
  | CSetGauge key val =>
      Some (flattenKey key ++ ":" ++ fmt_f val ++ "|g" ++ LF)%string
  | CSetGaugeWithLabels key val labels =>
      Some (flattenKeyLabels key labels ++ ":" ++ fmt_f val ++ "|g" ++ LF)%string
  | CEmitKey key val =>
      Some (flattenKey key ++ ":" ++ fmt_f val ++ "|kv" ++ LF)%string
  | CIncrCounter key val =>
      Some (flattenKey key ++ ":" ++ fmt_f val ++ "|c" ++ LF)%string
  | CIncrCounterWithLabels key val labels =>
      Some (flattenKeyLabels key labels ++ ":" ++ fmt_f val ++ "|c" ++ LF)%string
  | CAddSample key val =>
      Some (flattenKey key ++ ":" ++ fmt_f val ++ "|ms" ++ LF)%string
  | CAddSampleWithLabels key val labels =>
      Some (flattenKeyLabels key labels ++ ":" ++ fmt_f val ++ "|ms" ++ LF)%string
  | CShutdown => None
  end.

(** ** Streams of bytes *)

Definition bytes_of_lines (ls : list string) : list byte :=
  flat_map list_byte_of_string ls.

Definition is_prefix (l1 l2 : list byte) : Prop :=
  exists rest, l2 = l1 ++ rest.

(** Between [nw] and [nw'] the peer of connection [c] received [out] and
    no other peer received anything. *)
Definition sent_on (c : nat) (nw nw' : Net) (out : list byte) : Prop :=
  List.length nw' = List.length nw /\
  nth c nw' [] = nth c nw [] ++ out /\
  forall c', c' <> c -> nth c' nw' [] = nth c' nw [].

(** What the peer of connection [c] has received. *)
Definition received (st : State) (c : nat) : list byte :=
  nth c (net (world st)) [].

(** ** The sink's life cycle *)

(** The lines waiting in the queue, oldest first. *)
Definition queued (st : State) : list string :=
  match metricQueue (sink st) with
  | Some ch => items ch
  | None => []
  end.

(** [Shutdown] has closed the queue (the goroutine may since have set the
    field to nil). *)
Definition shut_down (st : State) : Prop :=
  match metricQueue (sink st) with
  | Some ch => closed ch = true
  | None => True
  end.

Definition queue_open (st : State) : Prop :=
  exists ch, metricQueue (sink st) = Some ch /\ closed ch = false.

(** The queue the worker sees is closed and drained: the next receive
    yields [ok = false]. *)
Definition closed_signal (st : State) : Prop :=
  exists ch, metricQueue (sink st) = Some ch /\ closed ch = true /\ items ch = [].

Definition terminated (st : State) : Prop :=
  pc (worker st) = QUIT \/ pc (worker st) = DONE.

(** The transport failure, if any, that the goroutine meets when it takes
    step [e] in [st], as the line it logs. *)
Definition transport_error (st : State) (e : WorkerEv) : option LogLine :=
  match pc (worker st), e with
  | CONNECT, EvDial false => Some ErrConnecting
  | STREAM, EvRecv rs =>
      match recv (metricQueue (sink st)), buffered (worker st) with
      | Ok (_, (metric, true)), Some b =>
          match Write b (net (world st)) rs (list_byte_of_string metric) with
          | Some (_, _, _, true) => Some ErrWriting
          | _ => None
          end
      | _, _ => None
      end
  | STREAM, EvTick rs =>
      match ticker_C (worker st), buffered (worker st) with
      | true, Some b =>
          let '(_, _, _, failed) := Flush b (net (world st)) rs in
          if failed then Some ErrFlushing else None
      | _, _ => None
      end
  | _, _ => None
  end.

(** Every connection has received an initial part of the bytes of some
    run of consecutive lines of the history. *)
Definition sessions_ok (nw : Net) (hist : list string) : Prop :=
  forall c, c < List.length nw ->
  exists before session after,
    hist = before ++ session ++ after /\
    is_prefix (nth c nw []) (bytes_of_lines session).

(** ** Invariant of the reachable states

    [taken] are the lines the goroutine has received so far. *)
Record InvAt (taken : list string) (st : State) : Prop := mkInv {
  inv_queue :
    match metricQueue (sink st) with
    | Some ch =>
        capacity ch = 4096 /\ List.length (items ch) <= 4096 /\
        history st = taken ++ items ch
    | None => pc (worker st) = DONE
    end;
  inv_done : pc (worker st) = DONE -> metricQueue (sink st) = None;
  inv_quit : pc (worker st) = QUIT -> closed_signal st;
  inv_wait : pc (worker st) = WAIT -> exists t, wait (worker st) = Some t;
  inv_stream :
    pc (worker st) = STREAM ->
    exists c b before session,
      sock (worker st) = Some c /\ buffered (worker st) = Some b /\
      wr b = c /\ c < List.length (net (world st)) /\
      err b = false /\ List.length (buf b) <= defaultBufSize /\
      taken = before ++ session /\
      received st c ++ buf b = bytes_of_lines session;
  inv_sessions : sessions_ok (net (world st)) (history st)
}.

Definition Inv (st : State) : Prop := exists taken, InvAt taken st.

(** ** Concrete runs *)

Definition statsite_addr : string := "127.0.0.1:8125".

Definition boot : State :=
  match fst (NewSink statsite_addr (fresh_world 0)) with
  | Some st => st
  | None => mkState (mkSink EmptyString None) (mkWorker DONE None None None false 0 false)
              (fresh_world 0) []
  end.

Definition gauge_a_b : Call := CSetGauge ["a"; "b"] f32_3_5.
Definition counter_req : Call := CIncrCounterWithLabels ["req"] f32_1 [mkLabel "status" "200"].

(** A sink that streams on its first connection with an empty queue. *)
Definition streaming : State :=
  match run boot [Work EvStart; Work (EvDial true)] with
  | Ok st => st
  | _ => boot
  end.

(** A sink whose goroutine is about to dial for the first time. *)
Definition connecting : State :=
  match run boot [Work EvStart] with
  | Ok st => st
  | _ => boot
  end.

(** A sink whose first dial failed: the goroutine waits. *)
Definition backing_off : State :=
  match run boot [Work EvStart; Work (EvDial false)] with
  | Ok st => st
  | _ => boot
  end.

(** A streaming sink with one line queued, shut down by the application. *)
Definition shut_with_backlog : State :=
  match run streaming [App gauge_a_b; App CShutdown] with
  | Ok st => st
  | _ => boot
  end.

(** A streaming sink shut down with an empty queue. *)
Definition shut_idle : State :=
  match run streaming [App CShutdown] with
  | Ok st => st
  | _ => boot
  end.

(** A streaming sink that has sent two lines to its peer. *)
Definition delivered_two : State :=
  match run streaming [App gauge_a_b; App counter_req; Work (EvRecv []);
                       Work (EvRecv []); Elapse flushInterval; Work (EvTick [])] with
  | Ok st => st
  | _ => boot
  end.

(** A sink whose goroutine has returned. *)
Definition finished : State :=
  match run streaming [App CShutdown; Work (EvRecv []); Work EvReturn] with
  | Ok st => st
  | _ => boot
  end.

End Props.

(* ------------------------------------------------------------------ *)
(** * The sink factory                                                  *)
(* ------------------------------------------------------------------ *)

Module Factory.

Import GoStrings GoChan Bufio Statsite.
Local Open Scope string_scope.
Local Open Scope list_scope.

(** The fields of [url.URL] the factory reads. *)
Record URL := mkURL { Scheme : string; Host : string; RawQuery : string }.

(** [url.Values]: a map from keys to the values given for them. *)
Definition Values := list (string * list string).

Fixpoint Values_lookup (v : Values) (key : string) : list string :=
  match v with
  | [] => []
  | (k, vs) :: rest => if (k =? key)%string then vs else Values_lookup rest key
  end.

(** [v.Get(key)]: the first value of the key, the empty string when
    there is none. *)
Definition Values_Get (v : Values) (key : string) : string :=
  match Values_lookup v key with
  | [] => EmptyString
  | x :: _ => x
  end.

Inductive GoError :=
  | LibError (msg : string)                       (* an error of a library *)
  | Errorf (format : string) (args : list ErrArg) (* [fmt.Errorf(format, args...)] *)
with ErrArg :=
  | ArgString (s : string)
  | ArgError (e : GoError).

(** [time.Duration]. *)
Definition Duration := Z.

Section Constructors.

(** The library functions and the sibling packages the factory calls. *)
Variable url_Parse : string -> URL + GoError.
Variable ParseQuery : string -> Values.
Variable ParseDuration : string -> Duration + GoError.
Variables InmemSink StatsdSink : Type.
Variable NewInmemSink : Duration -> Duration -> InmemSink.
Variable NewStatsdSink : string -> option StatsdSink * option GoError.

(** [metrics.Sink]: an interface value holds a pointer of one of the
    three sink types, which may itself be nil. *)
Inductive MetricSink :=
  | IsStatsite (s : option State)
  | IsStatsd (s : option StatsdSink)
  | IsInmem (s : option InmemSink).

(** [u.Query()]. *)
Definition Query (u : URL) : Values := ParseQuery (RawQuery u).

(** A generic interface around the [*SinkFromURL()] function provided by
    each sink type. *)
Definition sinkURLFactoryFunc : Type :=
  URL -> World -> option MetricSink * option GoError.

(** NewInmemSinkFromURL creates an InmemSink from a URL. *)
Definition NewInmemSinkFromURL : sinkURLFactoryFunc := fun u _ =>
  let params := Query u in
  match ParseDuration (Values_Get params "interval") with
  | inr err => (None, Some (Errorf "Bad 'interval' param: %s" [ArgError err]))
  | inl interval =>
      match ParseDuration (Values_Get params "retain") with
      | inr err => (None, Some (Errorf "Bad 'retain' param: %s" [ArgError err]))
      | inl retain => (Some (IsInmem (Some (NewInmemSink interval retain))), None)
      end
  end.

(** NewStatsiteSinkFromURL creates an StatsiteSink from a URL; the
    constructor of the statsite package is [NewSink]. *)
Definition NewStatsiteSinkFromURL : sinkURLFactoryFunc := fun u w =>
  let '(s, err) := NewSink (Host u) w in
  (Some (IsStatsite s), option_map LibError err).

(** NewStatsdSinkFromURL creates an StatsdSink from a URL. *)
Definition NewStatsdSinkFromURL : sinkURLFactoryFunc := fun u _ =>
  let '(s, err) := NewStatsdSink (Host u) in
  (Some (IsStatsd s), err).

(** sinkRegistry maps URL schemes to metric sink factory functions. *)
Definition sinkRegistry : list (string * sinkURLFactoryFunc) :=
  [("statsd", NewStatsdSinkFromURL);
   ("statsite", NewStatsiteSinkFromURL);
   ("inmem", NewInmemSinkFromURL)].

(** [sinkRegistry[scheme]]; [None] is the nil function. *)
Fixpoint registry_lookup (r : list (string * sinkURLFactoryFunc)) (scheme : string)
  : option sinkURLFactoryFunc :=
  match r with
  | [] => None
  | (k, f) :: rest => if (k =? scheme)%string then Some f else registry_lookup rest scheme
  end.

(** NewSinkFromURL allows a generic URL input to configure any of the
    supported sinks. *)
Definition NewSinkFromURL (urlStr : string) (w : World)
  : option MetricSink * option GoError :=
  match url_Parse urlStr with
  | inr err => (None, Some err)
  | inl u =>
      match registry_lookup sinkRegistry (Scheme u) with
      | None =>
          (None,
           Some (Errorf "cannot create metric sink, unrecognized sink name: %q"
                   [ArgString (Scheme u)]))
      | Some sinkURLFactoryFunc => sinkURLFactoryFunc u w
      end
  end.

End Constructors.

Arguments IsStatsite {InmemSink StatsdSink} s.
Arguments IsStatsd {InmemSink StatsdSink} s.
Arguments IsInmem {InmemSink StatsdSink} s.

(** Stand-ins for the libraries, for concrete runs: a parser that reads
    ["scheme|host|query"], a query of one pair ["key=value"] and
    durations written as ["1s"] or ["10s"]. *)
Definition demo_Parse (s : string) : URL + GoError :=
  match s with
  | "statsite://127.0.0.1:8125" => inl (mkURL "statsite" "127.0.0.1:8125" EmptyString)
  | "carbon://127.0.0.1:2003" => inl (mkURL "carbon" "127.0.0.1:2003" EmptyString)
  | "inmem://?interval=10s" => inl (mkURL "inmem" EmptyString "interval=10s")
  | _ => inr (LibError "parse error")
  end.

Definition demo_ParseQuery (q : string) : Values :=
  match q with
  | "interval=10s" => [("interval", ["10s"])]
  | _ => []
  end.

Definition demo_ParseDuration (s : string) : Duration + GoError :=
  match s with
  | "10s" => inl 10000000000%Z
  | "1s" => inl 1000000000%Z
  | _ => inr (LibError "time: invalid duration")
  end.

Definition demo_NewSinkFromURL :=
  NewSinkFromURL demo_Parse demo_ParseQuery demo_ParseDuration
    (Duration * Duration) unit (fun i r => (i, r)) (fun _ => (Some tt, None)).

End Factory.

(* ------------------------------------------------------------------ *)
(** * Further vocabulary                                                *)
(* ------------------------------------------------------------------ *)

Module MoreProps.

Import GoStrings GoChan Bufio Statsite Props.
Local Open Scope string_scope.
Local Open Scope list_scope.

(** Steps of the goroutine, as opposed to calls and the passing of time. *)
Definition is_work (a : Action) : bool :=
  match a with
  | Work _ => true
  | _ => false
  end.

(** Occurrences of a character in a string. *)
Fixpoint count_char (c : ascii) (s : string) : nat :=
  match s with
  | EmptyString => 0
  | String x r => (if (x =? c)%char then 1 else 0) + count_char c r
  end.

(** The text before and after the first occurrence of [c]. *)
Fixpoint split_at (c : ascii) (s : string) : option (string * string) :=
  match s with
  | EmptyString => None
  | String x r =>
      if (x =? c)%char then Some (EmptyString, r)
      else match split_at c r with
           | Some (a, b) => Some (String x a, b)
           | None => None
           end
  end.

(** The line feed as a character. *)
Definition LFc : ascii := "010"%char.

(** Reading a rendered value back: the number a run of decimal digits
    denotes, continuing from [acc]. *)
Fixpoint digits_value (acc : N) (s : string) : N :=
  match s with
  | EmptyString => acc
  | String c r => digits_value (10 * acc + (N_of_ascii c - 48))%N r
  end.

(** The sign and the number of millionths a fixed-point text with six
    fractional digits denotes. *)
Definition read_micro (s : string) : option (bool * N) :=
  let neg := match s with
             | String c _ => (c =? "-")%char
             | EmptyString => false
             end in
  match split_point (strip_sign s) with
  | Some (ip, fp) =>
      Some (neg, (digits_value 0 ip * 10 ^ 6 + digits_value 0 fp)%N)
  | None => None
  end.

(** A streaming sink with one line queued. *)
Definition streaming_one_queued : State :=
  match run streaming [App gauge_a_b] with
  | Ok st => st
  | _ => boot
  end.

(** A streaming sink whose writer buffers one line, with a tick due. *)
Definition streaming_one_buffered : State :=
  match run streaming [App gauge_a_b; Work (EvRecv []); Elapse flushInterval] with
  | Ok st => st
  | _ => boot
  end.

(** A streaming sink with nothing queued or buffered and a tick due. *)
Definition streaming_idle_tick : State :=
  match run streaming [Elapse flushInterval] with
  | Ok st => st
  | _ => boot
  end.

(** A sink shut down before its goroutine ran. *)
Definition shut_at_birth : State :=
  match run boot [App gauge_a_b; App CShutdown] with
  | Ok st => st
  | _ => boot
  end.

End MoreProps.

Import GoStrings GoChan Bufio Statsite Props MoreProps.
Local Open Scope string_scope.
Local Open Scope list_scope.
Local Open Scope nat_scope.

(* ------------------------------------------------------------------ *)
(** * Facts about strings and rendering                                 *)
(* ------------------------------------------------------------------ *)

Section StringFacts.

Lemma string_length_app (a b : string) :
  String.length (a ++ b)%string = String.length a + String.length b.
Proof. induction a as [|c a IH]; simpl; [reflexivity | now rewrite IH]. Qed.

Lemma all_digits_app (a b : string) :
  all_digits (a ++ b)%string = all_digits a && all_digits b.
Proof.
  induction a as [|c a IH]; simpl; [reflexivity|].
  now rewrite IH, andb_assoc.
Qed.

Lemma Map_ext (f g : ascii -> ascii) (s : string) :
  (forall c, f c = g c) -> Map f s = Map g s.
Proof. intros E. induction s as [|c s IH]; simpl; [reflexivity | now rewrite E, IH]. Qed.

Lemma Map_length (f : ascii -> ascii) (s : string) :
  String.length (Map f s) = String.length s.
Proof. induction s as [|c s IH]; simpl; [reflexivity | now rewrite IH]. Qed.

Lemma Map_get (f : ascii -> ascii) (s : string) (i : nat) :
  get i (Map f s) = option_map f (get i s).
Proof.
  revert i. induction s as [|c s IH]; intros [|i]; simpl; try reflexivity.
  apply IH.
Qed.

Lemma Join_concat (elems : list string) (sep : string) :
  Join elems sep = String.concat sep elems.
Proof.
  induction elems as [|x [|y rest] IH]; try reflexivity.
  change (Join (x :: y :: rest) sep) with (x ++ sep ++ Join (y :: rest) sep)%string.
  now rewrite IH.
Qed.

Lemma flattenKey_Map (parts : list string) :
  flattenKey parts = Map underscore (Join parts ".").
Proof.
  unfold flattenKey. apply Map_ext. intros c. unfold underscore.
  destruct (c =? ":")%char; [reflexivity|]. now destruct (c =? " ")%char.
Qed.

Lemma append_labels (labels : list Label) (parts : list string) :
  fold_left (fun parts label => parts ++ [Value label]) labels parts
  = parts ++ map Value labels.
Proof.
  revert parts. induction labels as [|l labels IH]; intros parts; simpl.
  - now rewrite app_nil_r.
  - rewrite IH, <- app_assoc. reflexivity.
Qed.

Lemma underscore_clean (c : ascii) :
  underscore c <> ":"%char /\ underscore c <> " "%char.
Proof.
  unfold underscore.
  destruct (Ascii.eqb_spec c ":"); simpl; [split; discriminate|].
  destruct (Ascii.eqb_spec c " "); simpl; [split; discriminate|].
  split; assumption.
Qed.

(** *** Decimal numerals *)

Lemma digit_char_is_digit (d : N) : is_digit (digit_char d) = true.
Proof.
  unfold digit_char.
  assert (H : (d mod 10 < 10)%N) by (apply N.mod_lt; discriminate).
  remember (d mod 10)%N as r eqn:E. clear E d.
  assert (K : r = 0%N \/ r = 1%N \/ r = 2%N \/ r = 3%N \/ r = 4%N \/ r = 5%N \/
              r = 6%N \/ r = 7%N \/ r = 8%N \/ r = 9%N) by lia.
  repeat (destruct K as [K|K]; [subst r; reflexivity|]). subst r; reflexivity.
Qed.

Lemma fixed_digits_length (w : nat) (n : N) :
  String.length (fixed_digits w n) = w.
Proof.
  revert n. induction w as [|w IH]; intros n; simpl; [reflexivity|].
  rewrite string_length_app, IH. simpl. lia.
Qed.

Lemma fixed_digits_all_digits (w : nat) (n : N) :
  all_digits (fixed_digits w n) = true.
Proof.
  revert n. induction w as [|w IH]; intros n; simpl; [reflexivity|].
  rewrite all_digits_app, IH. simpl. now rewrite digit_char_is_digit.
Qed.

Lemma string_of_uint_all_digits (d : Decimal.uint) :
  all_digits (NilEmpty.string_of_uint d) = true.
Proof. induction d; simpl; assumption || reflexivity. Qed.

Lemma string_of_uint_nonempty (d : Decimal.uint) :
  d <> Decimal.Nil -> String.length (NilEmpty.string_of_uint d) <> 0.
Proof. destruct d; simpl; congruence. Qed.

Lemma decimal_all_digits (n : N) : all_digits (decimal n) = true.
Proof. apply string_of_uint_all_digits. Qed.

Lemma decimal_nonempty (n : N) : String.length (decimal n) <> 0.
Proof.
  apply string_of_uint_nonempty. destruct n as [|p]; simpl.
  - discriminate.
  - apply DecimalPos.Unsigned.to_uint_nonnil.
Qed.

Lemma split_point_digits (ip fp : string) :
  all_digits ip = true ->
  split_point (ip ++ "." ++ fp)%string = Some (ip, fp).
Proof.
  induction ip as [|c ip IH]; intros H; simpl in *; [reflexivity|].
  apply andb_true_iff in H. destruct H as [Hc Hip].
  destruct (Ascii.eqb_spec c "."); [subst c; discriminate|].
  now rewrite IH.
Qed.

Lemma strip_sign_digits (ip rest : string) :
  String.length ip <> 0 -> all_digits ip = true ->
  strip_sign (ip ++ rest)%string = (ip ++ rest)%string.
Proof.
  destruct ip as [|c ip]; simpl; intros Hn H; [congruence|].
  apply andb_true_iff in H. destruct H as [Hc _].
  destruct (Ascii.eqb_spec c "-"); [subst c; discriminate | reflexivity].
Qed.

Lemma fmtF_fixed_point (neg : bool) (q : N) :
  is_fixed_point6 (fmtF neg q) = true.
Proof.
  unfold is_fixed_point6, fmtF.
  set (ip := decimal (q / 10 ^ N.of_nat default_prec)).
  set (fp := fixed_digits default_prec q).
  assert (Hs : strip_sign ((if neg then "-" else EmptyString) ++ ip ++ "." ++ fp)%string
               = (ip ++ "." ++ fp)%string).
  { destruct neg; [reflexivity|]. simpl.
    apply strip_sign_digits; [apply decimal_nonempty | apply decimal_all_digits]. }
  rewrite Hs, split_point_digits by apply decimal_all_digits.
  unfold ip, fp.
  rewrite decimal_all_digits, fixed_digits_all_digits, fixed_digits_length.
  destruct (Nat.eqb_spec (String.length (decimal (q / 10 ^ N.of_nat default_prec))) 0) as [E|E].
  - now apply decimal_nonempty in E.
  - reflexivity.
Qed.

Lemma fmt_f_finite (v : float32) :
  is_finite v = true -> is_fixed_point6 (fmt_f v) = true.
Proof.
  destruct v as [s|s| |s m e]; simpl; try discriminate; intros _;
    apply fmtF_fixed_point.
Qed.

(** [round_half_even] is within half a unit of the quotient. *)
Lemma round_half_even_nearest (num den : N) :
  (den <> 0)%N ->
  let q := round_half_even num den in
  (2 * (q * den) <= 2 * num + den /\ 2 * num <= 2 * (q * den) + den)%N.
Proof.
  intros Hd. unfold round_half_even.
  pose proof (N.div_mod num den Hd) as E.
  pose proof (N.mod_lt num den Hd) as L.
  set (k := (num / den)%N) in *. set (r := (num mod den)%N) in *.
  clearbody k r. subst num. cbv zeta.
  destruct (N.ltb_spec den (2 * r));
    [|destruct (N.eqb_spec (2 * r) den); cbn [andb]; [destruct (N.odd k)|]];
    rewrite ?N.mul_add_distr_r, ?N.mul_1_l, (N.mul_comm k den);
    generalize (den * k)%N; intros; lia.
Qed.

End StringFacts.

(* ------------------------------------------------------------------ *)
(** * Facts about connections and the buffered writer                   *)
(* ------------------------------------------------------------------ *)

Section BufioFacts.

Lemma sent_on_refl (c : nat) (nw : Net) : sent_on c nw nw [].
Proof. repeat split; auto. now rewrite app_nil_r. Qed.

Lemma sent_on_trans (c : nat) (nw nw1 nw2 : Net) (o1 o2 : list byte) :
  sent_on c nw nw1 o1 -> sent_on c nw1 nw2 o2 -> sent_on c nw nw2 (o1 ++ o2).
Proof.
  intros (L1 & A1 & B1) (L2 & A2 & B2). repeat split.
  - congruence.
  - now rewrite A2, A1, app_assoc.
  - intros c' Hc. now rewrite B2, B1.
Qed.

Lemma deliver_sent (nw : Net) (c : nat) (p : list byte) :
  c < List.length nw -> sent_on c nw (deliver nw c p) p.
Proof.
  revert c. induction nw as [|r nw IH]; intros c Hc; simpl in Hc; [lia|].
  destruct c as [|c]; simpl.
  - repeat split; auto. intros [|c'] Hc'; [congruence | reflexivity].
  - destruct (IH c) as (L & A & B); [lia|]. repeat split.
    + simpl. now rewrite L.
    + exact A.
    + intros [|c'] Hc'; [reflexivity|]. simpl. apply B. congruence.
Qed.

Lemma conn_Write_spec (nw nw' : Net) (c n : nat) (p : list byte) (r : IOResp) (e : bool) :
  c < List.length nw ->
  conn_Write nw c p r = (nw', n, e) ->
  n <= List.length p /\ sent_on c nw nw' (firstn n p) /\
  (e = false -> n = List.length p).
Proof.
  intros Hc H. destruct r as [|k]; simpl in H; inversion H; subst; clear H.
  - rewrite firstn_all. split; [lia|]. split; [now apply deliver_sent | reflexivity].
  - split; [lia|]. split; [now apply deliver_sent | discriminate].
Qed.

Lemma Flush_spec (b b' : Writer) (nw nw' : Net) (rs rs' : list IOResp) (e : bool) :
  wr b < List.length nw ->
  Flush b nw rs = (b', nw', rs', e) ->
  exists out,
    sent_on (wr b) nw nw' out /\ out ++ buf b' = buf b /\ wr b' = wr b /\
    (err b = false -> err b' = e /\ (e = false -> buf b' = [])).
Proof.
  intros Hc H. unfold Flush in H.
  destruct (err b) eqn:Eb.
  { inversion H; subst. exists []. split; [apply sent_on_refl|]. repeat split; congruence. }
  destruct (Nat.eqb_spec (Buffered b) 0) as [E0|E0].
  { inversion H; subst. exists []. split; [apply sent_on_refl|].
    repeat split; auto. intros _. unfold Buffered in E0.
    now apply length_zero_iff_nil. }
  destruct (next_resp rs) as [r rs1].
  destruct (conn_Write nw (wr b) (buf b) r) as [[nw1 n] e1] eqn:Ew.
  destruct (conn_Write_spec _ _ _ _ _ _ _ Hc Ew) as (Hn & Hs & He).
  destruct (e1 || (n <? Buffered b)) eqn:Ee; inversion H; subst; clear H; simpl.
  - exists (firstn n (buf b)). repeat split; auto; try apply Hs.
    + apply firstn_skipn.
    + discriminate.
  - apply orb_false_iff in Ee. destruct Ee as [Ee _]. subst e1.
    rewrite He in Hs by reflexivity. rewrite firstn_all in Hs.
    exists (buf b). repeat split; auto; try apply Hs. apply app_nil_r.
Qed.

Lemma Write_loop_spec (fuel : nat) :
  forall (b b' : Writer) (nw nw' : Net) (rs rs' : list IOResp) (p p' : list byte),
  wr b < List.length nw ->
  List.length (buf b) <= defaultBufSize ->
  Write_loop fuel b nw rs p = Some (b', nw', rs', p') ->
  exists out rest,
    sent_on (wr b) nw nw' out /\ out ++ rest = buf b ++ p /\ wr b' = wr b /\
    (err b' = false ->
     rest = buf b' ++ p' /\ List.length (buf b') + List.length p' <= defaultBufSize).
Proof.
  induction fuel as [|fuel IH]; intros b b' nw nw' rs rs' p p' Hc Hb H; simpl in H.
  - destruct ((Available b <? List.length p) && negb (err b)) eqn:Ec; [discriminate|].
    inversion H; subst. exists [], (buf b' ++ p'). split; [apply sent_on_refl|].
    do 2 (split; [reflexivity|]). intros Eb. rewrite Eb, andb_true_r in Ec.
    apply Nat.ltb_ge in Ec. unfold Available in Ec. split; [reflexivity | lia].
  - destruct ((Available b <? List.length p) && negb (err b)) eqn:Ec.
    + destruct (Nat.eqb_spec (Buffered b) 0) as [E0|E0].
      * destruct (next_resp rs) as [r rs1].
        destruct (conn_Write nw (wr b) p r) as [[nw1 n] e1] eqn:Ew.
        destruct (conn_Write_spec _ _ _ _ _ _ _ Hc Ew) as (Hn & Hs & He).
        assert (Hc1 : wr b < List.length nw1) by (destruct Hs as (L & _); lia).
        apply IH in H; simpl; auto.
        destruct H as (out & rest & S1 & E1 & W1 & R1). simpl in *.
        exists (firstn n p ++ out), rest.
        split; [eapply sent_on_trans; eauto|].
        unfold Buffered in E0. apply length_zero_iff_nil in E0.
        rewrite E0 in *. simpl in *. rewrite <- app_assoc, E1.
        split; [apply firstn_skipn|]. split; assumption.
      * set (n := Nat.min (Available b) (List.length p)) in *.
        destruct (Flush (mkWriter (wr b) (buf b ++ firstn n p) (err b)) nw rs)
          as [[[b1 nw1] rs1] e1] eqn:Ef.
        destruct (Flush_spec (mkWriter (wr b) (buf b ++ firstn n p) (err b))
                    _ _ _ _ _ _ Hc Ef) as (out0 & S0 & B0 & W0 & _).
        simpl in *.
        assert (Hc1 : wr b1 < List.length nw1) by (destruct S0 as (L & _); lia).
        assert (Hb1 : List.length (buf b1) <= defaultBufSize).
        { apply (f_equal (@List.length byte)) in B0.
          rewrite !length_app, length_firstn in B0.
          unfold Available in n. lia. }
        apply IH in H; auto.
        destruct H as (out & rest & S1 & E1 & W1 & R1).
        rewrite W0 in *.
        exists (out0 ++ out), rest.
        split; [eapply sent_on_trans; eauto|].
        rewrite <- app_assoc, E1, app_assoc, B0, <- app_assoc, firstn_skipn.
        split; [reflexivity|]. split; assumption.
    + inversion H; subst. exists [], (buf b' ++ p'). split; [apply sent_on_refl|].
      do 2 (split; [reflexivity|]). intros Eb. rewrite Eb, andb_true_r in Ec.
      apply Nat.ltb_ge in Ec. unfold Available in Ec. split; [reflexivity | lia].
Qed.

Lemma Write_loop_stop (fuel : nat) (b : Writer) (nw : Net) (rs : list IOResp)
  (p : list byte) :
  (Available b <? List.length p) && negb (err b) = false ->
  Write_loop fuel b nw rs p = Some (b, nw, rs, p).
Proof. intros E. destruct fuel; simpl; now rewrite E. Qed.

(** One direct write ends the loop. *)
Lemma Write_loop_direct (fuel : nat) (b : Writer) (nw : Net) (rs : list IOResp)
  (p : list byte) :
  Buffered b = 0 -> Write_loop (S fuel) b nw rs p <> None.
Proof.
  intros E0. simpl.
  destruct ((Available b <? List.length p) && negb (err b)); [|discriminate].
  rewrite E0. simpl.
  destruct (next_resp rs) as [r rs1].
  destruct r as [|k]; simpl; rewrite Write_loop_stop; try discriminate.
  - rewrite skipn_all. reflexivity.
  - apply andb_false_r.
Qed.

Lemma Flush_result (b b' : Writer) (nw nw' : Net) (rs rs' : list IOResp) (e : bool) :
  Flush b nw rs = (b', nw', rs', e) -> err b' = true \/ Buffered b' = 0.
Proof.
  unfold Flush. destruct (err b) eqn:Eb.
  { intros H; inversion H; subst; auto. }
  destruct (Nat.eqb_spec (Buffered b) 0) as [E0|E0].
  { intros H; inversion H; subst; auto. }
  destruct (next_resp rs) as [r rs1].
  destruct (conn_Write nw (wr b) (buf b) r) as [[nw1 n] e1].
  destruct (e1 || (n <? Buffered b)); intros H; inversion H; subst; auto.
Qed.

(** The loop of [Write] leaves within two iterations. *)
Lemma Write_loop_exits (fuel : nat) (b : Writer) (nw : Net) (rs : list IOResp)
  (p : list byte) :
  Write_loop (Write_fuel + fuel) b nw rs p <> None.
Proof.
  unfold Write_fuel. cbn [Nat.add].
  destruct (Nat.eq_dec (Buffered b) 0) as [E0|E0].
  { now apply Write_loop_direct. }
  remember (S fuel) as f1 eqn:Ef1. simpl.
  destruct ((Available b <? List.length p) && negb (err b)); [|discriminate].
  apply Nat.eqb_neq in E0. rewrite E0.
  set (n := Nat.min (Available b) (List.length p)).
  destruct (Flush (mkWriter (wr b) (buf b ++ firstn n p) (err b)) nw rs)
    as [[[b1 nw1] rs1] e1] eqn:Ef.
  destruct (Flush_result _ _ _ _ _ _ _ Ef) as [E1|E1].
  - rewrite Write_loop_stop; [discriminate|]. rewrite E1. apply andb_false_r.
  - subst f1. now apply Write_loop_direct.
Qed.

Lemma Write_total (b : Writer) (nw : Net) (rs : list IOResp) (p : list byte) :
  exists r, Write b nw rs p = Some r.
Proof.
  unfold Write.
  pose proof (Write_loop_exits 0 b nw rs p) as H. rewrite Nat.add_0_r in H.
  destruct (Write_loop Write_fuel b nw rs p) as [[[[b1 nw1] rs1] p1]|];
    [|congruence].
  destruct (err b1); eauto.
Qed.

Lemma Write_spec (b b' : Writer) (nw nw' : Net) (rs rs' : list IOResp)
  (p : list byte) (e : bool) :
  wr b < List.length nw ->
  List.length (buf b) <= defaultBufSize ->
  Write b nw rs p = Some (b', nw', rs', e) ->
  exists out rest,
    sent_on (wr b) nw nw' out /\ out ++ rest = buf b ++ p /\ wr b' = wr b /\
    err b' = e /\
    (e = false -> rest = buf b' /\ List.length (buf b') <= defaultBufSize).
Proof.
  intros Hc Hb H. unfold Write in H.
  destruct (Write_loop Write_fuel b nw rs p) as [[[[b1 nw1] rs1] p1]|] eqn:El;
    [|discriminate].
  destruct (Write_loop_spec _ _ _ _ _ _ _ _ _ Hc Hb El) as (out & rest & S1 & E1 & W1 & R1).
  destruct (err b1) eqn:Eb; inversion H; subst; clear H; simpl.
  - exists out, rest. do 4 (split; [assumption|]). discriminate.
  - destruct (R1 eq_refl) as [R2 R3]. exists out, rest.
    do 3 (split; [assumption|]). split; [reflexivity|]. intros _.
    split; [assumption|]. rewrite length_app. lia.
Qed.

End BufioFacts.

(* ------------------------------------------------------------------ *)
(** * Facts about the sink's methods                                    *)
(* ------------------------------------------------------------------ *)

Section SinkFacts.

Lemma skipn_length_app {A : Type} (l x : list A) :
  skipn (List.length l) (l ++ x) = x.
Proof. induction l as [|a l IH]; simpl; [reflexivity | exact IH]. Qed.

Lemma invoke_rendered (s : Sink) (c : Call) (m : string) :
  rendered c = Some m -> invoke s c = pushMetric s m.
Proof.
  destruct c; simpl; intros H; inversion H; reflexivity.
Qed.

Lemma is_emit_rendered (c : Call) :
  is_emit c = true -> exists m, rendered c = Some m.
Proof. destruct c; simpl; intros H; try discriminate; eauto. Qed.

(** The four behaviours of the non-blocking push. *)
Lemma pushMetric_cases (s : Sink) (m : string) :
  match metricQueue s with
  | None => pushMetric s m = Ok s
  | Some ch =>
      if closed ch then pushMetric s m = Panic SendOnClosedChannel
      else if List.length (items ch) <? capacity ch
      then pushMetric s m =
           Ok (mkSink (addr s) (Some (mkChan (items ch ++ [m]) (capacity ch) false)))
      else pushMetric s m = Ok s
  end.
Proof.
  unfold pushMetric, send. destruct (metricQueue s) as [ch|]; [|reflexivity].
  destruct (closed ch) eqn:Ec; [reflexivity|].
  destruct (List.length (items ch) <? capacity ch); reflexivity.
Qed.

Lemma pushMetric_not_Blocked (s : Sink) (m : string) : pushMetric s m <> Blocked.
Proof.
  pose proof (pushMetric_cases s m) as H.
  destruct (metricQueue s) as [ch|]; [|congruence].
  destruct (closed ch); [congruence|].
  destruct (List.length (items ch) <? capacity ch); congruence.
Qed.

Lemma Shutdown_cases (s : Sink) :
  match metricQueue s with
  | None => Shutdown s = Panic CloseOfNilChannel
  | Some ch =>
      if closed ch then Shutdown s = Panic CloseOfClosedChannel
      else Shutdown s = Ok (mkSink (addr s) (Some (mkChan (items ch) (capacity ch) true)))
  end.
Proof.
  unfold Shutdown, close. destruct (metricQueue s) as [ch|]; [|reflexivity].
  destruct (closed ch); reflexivity.
Qed.

(** A call changes the sink in one of three ways. *)
Lemma invoke_Ok (s s' : Sink) (c : Call) :
  invoke s c = Ok s' ->
  (s' = s /\ newly_queued s s' = []) \/
  (exists ch m, metricQueue s = Some ch /\ closed ch = false /\
     List.length (items ch) < capacity ch /\ rendered c = Some m /\
     s' = mkSink (addr s) (Some (mkChan (items ch ++ [m]) (capacity ch) false)) /\
     newly_queued s s' = [m]) \/
  (exists ch, c = CShutdown /\ metricQueue s = Some ch /\ closed ch = false /\
     s' = mkSink (addr s) (Some (mkChan (items ch) (capacity ch) true)) /\
     newly_queued s s' = []).
Proof.
  intros H. destruct (is_emit c) eqn:Ee.
  - destruct (is_emit_rendered c Ee) as [m Hm].
    rewrite (invoke_rendered s c m Hm) in H.
    pose proof (pushMetric_cases s m) as K. unfold newly_queued, len.
    destruct (metricQueue s) as [ch|] eqn:Eq.
    + destruct (closed ch) eqn:Ec; [congruence|].
      destruct (Nat.ltb_spec (List.length (items ch)) (capacity ch)).
      * right; left. exists ch, m. rewrite K in H. inversion H; subst; simpl.
        repeat split; auto. apply skipn_length_app.
      * left. rewrite K in H. inversion H; subst. rewrite Eq.
        split; [reflexivity | apply skipn_all].
    + left. rewrite K in H. inversion H; subst. rewrite Eq. split; reflexivity.
  - destruct c; try discriminate. simpl in H.
    pose proof (Shutdown_cases s) as K.
    destruct (metricQueue s) as [ch|] eqn:Eq; [|congruence].
    destruct (closed ch) eqn:Ec; [congruence|].
    right; right. exists ch. rewrite K in H. inversion H; subst.
    unfold newly_queued, len. rewrite Eq. simpl.
    repeat split; auto. apply skipn_all.
Qed.

End SinkFacts.

(* ------------------------------------------------------------------ *)
(** * The invariant holds in every reachable state                      *)
(* ------------------------------------------------------------------ *)

Lemma recv_Ok (q q' : chanref) (m : string) (ok : bool) :
  recv q = Ok (q', (m, ok)) ->
  exists ch, q = Some ch /\
    ((ok = true /\ exists rest, items ch = m :: rest /\
        q' = Some (mkChan rest (capacity ch) (closed ch))) \/
     (ok = false /\ items ch = [] /\ closed ch = true /\ q' = q)).
Proof.
  unfold recv. destruct q as [ch|]; [|discriminate]. intros H. exists ch.
  split; [reflexivity|]. destruct (items ch) as [|x rest].
  - destruct (closed ch); inversion H; subst. right. auto.
  - inversion H; subst. left. eauto.
Qed.

Ltac open_state st :=
  destruct st as [[a q] [l sk bf wt ton tat tc] [t nw dl lg] hist].

Section Invariant.

Lemma bytes_of_lines_app (a b : list string) :
  bytes_of_lines (a ++ b) = bytes_of_lines a ++ bytes_of_lines b.
Proof. apply flat_map_app. Qed.

Lemma bytes_of_lines_snoc (a : list string) (m : string) :
  bytes_of_lines (a ++ [m]) = bytes_of_lines a ++ list_byte_of_string m.
Proof. rewrite bytes_of_lines_app. simpl. now rewrite app_nil_r. Qed.

Lemma sessions_ok_grow (nw : Net) (hist more : list string) :
  sessions_ok nw hist -> sessions_ok nw (hist ++ more).
Proof.
  intros H c Hc. destruct (H c Hc) as (b & s & a & E & P).
  exists b, s, (a ++ more). split; [|exact P].
  rewrite E, <- !app_assoc. reflexivity.
Qed.

Lemma sessions_ok_dial (nw : Net) (hist : list string) :
  sessions_ok nw hist -> sessions_ok (nw ++ [[]]) hist.
Proof.
  intros H c Hc. rewrite length_app in Hc. simpl in Hc.
  destruct (Nat.lt_ge_cases c (List.length nw)) as [L|L].
  - rewrite app_nth1 by exact L. now apply H.
  - rewrite app_nth2 by exact L. replace (c - List.length nw) with 0 by lia.
    exists [], [], hist. split; [reflexivity|]. exists []. reflexivity.
Qed.

Lemma sessions_ok_sent (nw nw' : Net) (hist : list string) (c : nat) (out : list byte) :
  sessions_ok nw hist ->
  sent_on c nw nw' out ->
  (exists before session after,
     hist = before ++ session ++ after /\
     is_prefix (nth c nw [] ++ out) (bytes_of_lines session)) ->
  sessions_ok nw' hist.
Proof.
  intros H (L & A & B) K c' Hc'. rewrite L in Hc'.
  destruct (Nat.eq_dec c' c) as [->|N].
  - rewrite A. exact K.
  - rewrite (B c' N). now apply H.
Qed.

Lemma invoke_InvAt (taken : list string) (st : State) (c : Call) (s' : Sink) :
  InvAt taken st -> invoke (sink st) c = Ok s' ->
  InvAt taken (mkState s' (worker st) (world st)
                 (history st ++ newly_queued (sink st) s')).
Proof.
  intros [Iq Id Iqt Iw Is In] H.
  destruct (invoke_Ok _ _ _ H)
    as [[-> E] | [(ch & m & Eq & Ec & Hl & Hr & -> & E) | (ch & -> & Eq & Ec & -> & E)]];
    rewrite E; clear E.
  - rewrite app_nil_r.
    replace (mkState (sink st) (worker st) (world st) (history st)) with st
      by (destruct st; reflexivity).
    constructor; assumption.
  - rewrite Eq in Iq. destruct Iq as (Hc & Hn & Hh).
    constructor; simpl.
    + split; [exact Hc|]. split; [rewrite length_app; simpl; lia|].
      rewrite Hh, <- app_assoc. reflexivity.
    + intros K. apply Id in K. congruence.
    + intros K. destruct (Iqt K) as (ch' & E1 & E2 & _). congruence.
    + exact Iw.
    + exact Is.
    + apply sessions_ok_grow. exact In.
  - rewrite Eq in Iq. destruct Iq as (Hc & Hn & Hh). rewrite app_nil_r.
    constructor; simpl.
    + auto.
    + intros K. apply Id in K. congruence.
    + intros K. destruct (Iqt K) as (ch' & E1 & E2 & _). congruence.
    + exact Iw.
    + exact Is.
    + exact In.
Qed.

Lemma elapse_InvAt (taken : list string) (st : State) (d : N) :
  InvAt taken st -> InvAt taken (elapse st d).
Proof.
  intros [Iq Id Iqt Iw Is In]. unfold elapse.
  destruct (ticker_on (worker st) && (ticker_at (worker st) <=? now (world st) + d)%N);
    constructor; simpl; assumption.
Qed.

Lemma recv_cases (q : chanref) :
  match q with
  | None => recv q = Blocked
  | Some ch =>
      match items ch with
      | m :: rest => recv q = Ok (Some (mkChan rest (capacity ch) (closed ch)), (m, true))
      | [] => if closed ch then recv q = Ok (q, (EmptyString, false))
              else recv q = Blocked
      end
  end.
Proof.
  destruct q as [ch|]; simpl; [|reflexivity].
  destruct (items ch); [|reflexivity]. destruct (closed ch); reflexivity.
Qed.

Lemma worker_Inv (st st' : State) (e : WorkerEv) :
  Inv st -> worker_step st e = Ok st' -> Inv st'.
Proof.
  intros [taken [Iq Id Iqt Iw Is In]] H.
  open_state st. unfold worker_step in H. unfold received in *. simpl in *.
  destruct l, e; try discriminate.
  - (* START *)
    inversion H; subst; clear H. exists taken. constructor; simpl; try discriminate.
    + destruct q; [assumption | discriminate].
    + assumption.
  - (* CONNECT *)
    destruct ok; inversion H; subst; clear H; exists taken; constructor;
      unfold received; simpl; try discriminate; eauto.
    + destruct q; [assumption | discriminate].
    + intros _. exists (List.length nw), (NewWriter (List.length nw)), taken, [].
      simpl. rewrite length_app, app_nil_r, nth_middle. simpl.
      repeat split; auto; try lia.
    + now apply sessions_ok_dial.
    + destruct q; [assumption | discriminate].
  - (* STREAM, receive *)
    destruct (Is eq_refl) as (c & b & before & session & Es & Eb & Ew & Hc & Ee & Hl & Et & Er).
    subst bf sk.
    pose proof (recv_cases q) as R.
    destruct q as [ch|]; [|rewrite R in H; discriminate].
    destruct Iq as (Qc & Ql & Qh).
    destruct (items ch) as [|m rest] eqn:Ei.
    { destruct (closed ch) eqn:Ec; rewrite R in H; [|discriminate].
      simpl in H. inversion H; subst; clear H. exists (before ++ session).
      constructor; unfold closed_signal; simpl; try discriminate; eauto.
      rewrite Ei. auto. }
    rewrite R in H. simpl in H.
    destruct (Write b nw rs (list_byte_of_string m)) as [[[[b' nw'] rs'] failed]|] eqn:EW;
      [|discriminate].
    rewrite <- Ew in Hc.
    destruct (Write_spec _ _ _ _ _ _ _ _ Hc Hl EW) as (out & rest0 & So & Eo & Wo & Eo' & Ro).
    assert (K : exists before0 session0 after0,
               hist = before0 ++ session0 ++ after0 /\
               is_prefix (nth (wr b) nw [] ++ out) (bytes_of_lines session0)).
    { exists before, (session ++ [m]), rest. split.
      - rewrite Qh, Et, <- !app_assoc. reflexivity.
      - exists rest0. rewrite bytes_of_lines_snoc, <- app_assoc, Eo, <- Er, Ew.
        now rewrite app_assoc. }
    pose proof (sessions_ok_sent _ _ _ _ _ In So K) as In'.
    destruct So as (Ln & An & Bn).
    destruct failed; inversion H; subst; clear H; exists ((before ++ session) ++ [m]);
      constructor; unfold received; simpl; try discriminate; eauto.
    + simpl in Ql. repeat split; auto; try lia. rewrite <- !app_assoc. reflexivity.
    + simpl in Ql. repeat split; auto; try lia. rewrite <- !app_assoc. reflexivity.
    + intros _. destruct (Ro eq_refl) as [R1 R2]. subst rest0.
      exists (wr b), b', before, (session ++ [m]).
      repeat split; auto; try lia.
      * now rewrite app_assoc.
      * rewrite An, <- app_assoc, Eo, bytes_of_lines_snoc, <- Er.
        now rewrite app_assoc.
  - (* STREAM, tick *)
    destruct (Is eq_refl) as (c & b & before & session & Es & Eb & Ew & Hc & Ee & Hl & Et & Er).
    subst bf sk. destruct tc; [|discriminate].
    destruct (Flush b nw rs) as [[[b' nw'] rs'] failed] eqn:EF.
    rewrite <- Ew in Hc.
    destruct (Flush_spec _ _ _ _ _ _ _ Hc EF) as (out & So & Eo & Wo & Ro).
    destruct (Ro Ee) as [R1 R2].
    assert (K : exists before0 session0 after0,
               hist = before0 ++ session0 ++ after0 /\
               is_prefix (nth (wr b) nw [] ++ out) (bytes_of_lines session0)).
    { destruct (In c) as (b0 & s0 & a0 & E0 & P0); [lia|].
      destruct q as [ch|]; [|discriminate].
      destruct Iq as (Qc & Ql & Qh).
      exists before, session, (items ch). split.
      - rewrite Qh, Et, <- app_assoc. reflexivity.
      - exists (buf b'). rewrite <- app_assoc, Eo, <- Er, Ew. reflexivity. }
    pose proof (sessions_ok_sent _ _ _ _ _ In So K) as In'.
    destruct So as (Ln & An & Bn).
    destruct failed; inversion H; subst; clear H; exists (before ++ session);
      constructor; unfold received; simpl; try discriminate; eauto;
      try (destruct q; [assumption | discriminate]).
    intros _. exists (wr b), b', before, session.
    rewrite (R2 eq_refl) in *. simpl.
    repeat split; auto; try lia.
    rewrite An, <- Er, <- Eo, !app_nil_r. reflexivity.
  - (* WAIT, receive *)
    pose proof (recv_cases q) as R.
    destruct q as [ch|]; [|rewrite R in H; discriminate].
    destruct Iq as (Qc & Ql & Qh).
    destruct (items ch) as [|m rest] eqn:Ei.
    { destruct (closed ch) eqn:Ec; rewrite R in H; [|discriminate].
      simpl in H. inversion H; subst; clear H. exists taken.
      constructor; unfold closed_signal; simpl; try discriminate; eauto.
      rewrite Ei. auto. }
    rewrite R in H. simpl in H. inversion H; subst; clear H.
    exists (taken ++ [m]). constructor; simpl; try discriminate; eauto.
    simpl in Ql. repeat split; auto; try lia. rewrite <- app_assoc. reflexivity.
  - (* WAIT, timeout *)
    destruct wt as [tw|]; [|discriminate].
    destruct (tw <=? t)%N; inversion H; subst; clear H.
    exists taken. constructor; simpl; try discriminate; eauto.
    destruct q; [assumption | discriminate].
  - (* QUIT *)
    inversion H; subst; clear H. exists taken.
    constructor; simpl; try discriminate; eauto.
Qed.

End Invariant.

(* ------------------------------------------------------------------ *)
(** * Steps, runs and what they preserve                                *)
(* ------------------------------------------------------------------ *)

(** Case analysis of a successful step of the goroutine. *)
Ltac worker_cases H :=
  unfold worker_step in H; simpl in H;
  repeat match type of H with
         | context [match ?x with _ => _ end] =>
             destruct x eqn:?; simpl in H; try discriminate
         end;
  try (inversion H; subst; clear H; simpl in *).

Section Runs.

Lemma step_Inv (st st' : State) (a : Action) :
  Inv st -> step st a = Ok st' -> Inv st'.
Proof.
  intros I H. destruct a as [c|e|d]; simpl in H.
  - destruct (invoke (sink st) c) as [s'| |p] eqn:E; try discriminate.
    inversion H; subst. destruct I as [taken I]. exists taken.
    now apply invoke_InvAt with c.
  - eapply worker_Inv; eauto.
  - inversion H; subst. destruct I as [taken I]. exists taken.
    now apply elapse_InvAt.
Qed.

Lemma run_Inv (acts : list Action) (st st' : State) :
  Inv st -> run st acts = Ok st' -> Inv st'.
Proof.
  revert st. induction acts as [|a acts IH]; intros st I H; simpl in H.
  - inversion H; subst; exact I.
  - destruct (step st a) as [st1| |p] eqn:E; try discriminate.
    apply (IH st1); [eapply step_Inv; eassumption | exact H].
Qed.

Lemma NewSink_Inv (a : string) (t : N) (st0 : State) :
  fst (NewSink a (fresh_world t)) = Some st0 -> Inv st0.
Proof.
  simpl. intros H; inversion H; subst; clear H. exists [].
  constructor; simpl; try discriminate.
  - split; [reflexivity|]. split; [apply Nat.le_0_l | reflexivity].
  - intros c Hc. simpl in Hc. lia.
Qed.

Lemma reachable_Inv (a : string) (t : N) (st : State) :
  reachable a t st -> Inv st.
Proof.
  intros (st0 & acts & H0 & H).
  apply (run_Inv acts st0); [eapply NewSink_Inv; eassumption | exact H].
Qed.

Lemma run_app (acts1 acts2 : list Action) (st st1 : State) :
  run st acts1 = Ok st1 -> run st (acts1 ++ acts2) = run st1 acts2.
Proof.
  revert st. induction acts1 as [|a acts1 IH]; intros st H; simpl in *.
  - now inversion H.
  - destruct (step st a) as [st'| |p]; try discriminate. now apply IH.
Qed.

Lemma reachable_run (a : string) (t : N) (st st' : State) (acts : list Action) :
  reachable a t st -> run st acts = Ok st' -> reachable a t st'.
Proof.
  intros (st0 & acts0 & H0 & H) R. exists st0, (acts0 ++ acts).
  split; [exact H0|]. now rewrite (run_app _ _ _ _ H).
Qed.

(** A call leaves the goroutine and the world alone. *)
Lemma step_App_frame (st st' : State) (c : Call) :
  step st (App c) = Ok st' ->
  worker st' = worker st /\ world st' = world st /\
  exists new, queued st' = queued st ++ new /\ history st' = history st ++ new.
Proof.
  simpl. destruct (invoke (sink st) c) as [s'| |p] eqn:E; try discriminate.
  intros H; inversion H; subst; clear H. simpl. repeat split.
  destruct (invoke_Ok _ _ _ E)
    as [[-> N] | [(ch & m & Eq & Ec & Hl & Hr & -> & N) | (ch & -> & Eq & Ec & -> & N)]];
    rewrite N; unfold queued; simpl; try rewrite Eq; simpl.
  - exists []. now rewrite !app_nil_r.
  - exists [m]. split; reflexivity.
  - exists []. now rewrite !app_nil_r.
Qed.

(** The clock never goes back. *)
Lemma step_now (st st' : State) (a : Action) :
  step st a = Ok st' -> (now (world st) <= now (world st'))%N.
Proof.
  destruct a as [c|e|d]; intros H.
  - destruct (step_App_frame _ _ _ H) as (_ & -> & _). lia.
  - open_state st. simpl in H. unfold worker_step in H; simpl in H.
    destruct l, e; try discriminate.
    + inversion H; subst; simpl; lia.
    + destruct ok; inversion H; subst; simpl; lia.
    + destruct (recv q) as [[q' [m ok]]| |]; try discriminate.
      destruct ok; simpl in H; [|inversion H; subst; simpl; lia].
      destruct bf as [b|]; try discriminate.
      destruct (Write b nw rs (list_byte_of_string m)) as [[[[b' nw'] rs'] f]|];
        try discriminate.
      destruct f; inversion H; subst; simpl; lia.
    + destruct tc; try discriminate. destruct bf as [b|]; try discriminate.
      destruct (Flush b nw rs) as [[[b' nw'] rs'] f].
      destruct f; inversion H; subst; simpl; lia.
    + destruct (recv q) as [[q' [m ok]]| |]; try discriminate.
      destruct ok; simpl in H; inversion H; subst; simpl; lia.
    + destruct wt as [tw|]; try discriminate.
      destruct (tw <=? t)%N; inversion H; subst; simpl; lia.
    + inversion H; subst; simpl; lia.
  - simpl in H. inversion H; subst. unfold elapse. simpl. lia.
Qed.

Lemma run_now (acts : list Action) (st st' : State) :
  run st acts = Ok st' -> (now (world st) <= now (world st'))%N.
Proof.
  revert st. induction acts as [|a acts IH]; intros st H; simpl in H.
  - inversion H; subst; lia.
  - destruct (step st a) as [st1| |p] eqn:E; try discriminate.
    apply step_now in E. apply IH in H. lia.
Qed.

Lemma step_terminated (st st' : State) (a : Action) :
  terminated st -> step st a = Ok st' ->
  terminated st' /\ net (world st') = net (world st) /\
  dialed (world st') = dialed (world st).
Proof.
  intros T H. destruct a as [c|e|d].
  - destruct (step_App_frame _ _ _ H) as (Ew & Ed & _).
    unfold terminated. now rewrite Ew, Ed.
  - open_state st. unfold terminated in *. simpl in *.
    destruct T as [-> | ->]; destruct e; worker_cases H; auto.
  - simpl in H. inversion H; subst. unfold terminated, elapse in *. simpl.
    destruct (ticker_on (worker st) && _); simpl; auto.
Qed.

Lemma run_terminated (acts : list Action) (st st' : State) :
  terminated st -> run st acts = Ok st' ->
  terminated st' /\ net (world st') = net (world st) /\
  dialed (world st') = dialed (world st).
Proof.
  revert st. induction acts as [|a acts IH]; intros st T H; simpl in H.
  - inversion H; subst; auto.
  - destruct (step st a) as [st1| |p] eqn:E; try discriminate.
    destruct (step_terminated _ _ _ T E) as (T1 & N1 & D1).
    destruct (IH _ T1 H) as (T2 & N2 & D2). repeat split; congruence.
Qed.

(** Once the goroutine has returned and dropped the queue, both stay so. *)
Lemma step_done (st st' : State) (a : Action) :
  pc (worker st) = DONE -> metricQueue (sink st) = None ->
  step st a = Ok st' ->
  pc (worker st') = DONE /\ metricQueue (sink st') = None.
Proof.
  intros P Q H. destruct a as [c|e|d].
  - destruct (step_App_frame _ _ _ H) as (Ew & _ & _). rewrite Ew.
    split; [exact P|]. simpl in H.
    destruct (invoke (sink st) c) as [s'| |p] eqn:E; try discriminate.
    inversion H; subst; simpl.
    destruct (invoke_Ok _ _ _ E)
      as [[-> _] | [(ch & m & Eq & _) | (ch & _ & Eq & _)]]; congruence.
  - open_state st. simpl in *. subst. destruct e; worker_cases H.
  - simpl in H. inversion H; subst. unfold elapse. simpl.
    destruct (ticker_on (worker st) && _); simpl; auto.
Qed.

Lemma run_done (acts : list Action) (st st' : State) :
  pc (worker st) = DONE -> metricQueue (sink st) = None ->
  run st acts = Ok st' ->
  pc (worker st') = DONE /\ metricQueue (sink st') = None.
Proof.
  revert st. induction acts as [|a acts IH]; intros st P Q H; simpl in H.
  - inversion H; subst; auto.
  - destruct (step st a) as [st1| |p] eqn:E; try discriminate.
    destruct (step_done _ _ _ P Q E) as (P1 & Q1). now apply (IH st1).
Qed.

(** A closed queue is never reopened. *)
Lemma step_shut_down (st st' : State) (a : Action) :
  shut_down st -> step st a = Ok st' -> shut_down st'.
Proof.
  intros S H. unfold shut_down in *. destruct a as [c|e|d].
  - simpl in H.
    destruct (invoke (sink st) c) as [s'| |p] eqn:E; try discriminate.
    inversion H; subst; simpl.
    destruct (invoke_Ok _ _ _ E)
      as [[-> _] | [(ch & m & Eq & Ec & _) | (ch & _ & Eq & Ec & _)]];
      try exact S; rewrite Eq in S; congruence.
  - open_state st. simpl in *. destruct e; worker_cases H; auto;
      match goal with
      | K : recv _ = Ok _ |- _ =>
          apply recv_Ok in K;
          destruct K as (ch & -> & [(_ & rest & _ & K) | (_ & _ & _ & K)]);
          inversion K; subst; simpl; auto
      end.
  - simpl in H. inversion H; subst. unfold elapse. simpl. exact S.
Qed.

Lemma run_shut_down (acts : list Action) (st st' : State) :
  shut_down st -> run st acts = Ok st' -> shut_down st'.
Proof.
  revert st. induction acts as [|a acts IH]; intros st S H; simpl in H.
  - inversion H; subst; auto.
  - destruct (step st a) as [st1| |p] eqn:E; try discriminate.
    apply (IH st1); [eapply step_shut_down; eassumption | exact H].
Qed.

End Runs.

(* ------------------------------------------------------------------ *)
(** * Formatting                                                        *)
(* ------------------------------------------------------------------ *)

Section Formatting.


(** C6, as the code has it.  Each emit operation formats exactly the
    line [<flattened-key>:<value>|<suffix>\n], with suffix [g] for a
    gauge, [c] for a counter, [ms] for a sample and [kv] for a key-value,
    where [<value>] is the verb [%f] applied to the value: for every
    finite value an optional minus sign, the integer digits, a point and
    exactly six fractional digits; NaN and the infinities print as [NaN],
    [+Inf] and [-Inf].  [SetGauge ["a";"b"] 3.5] formats
    ["a.b:3.500000|g\n"] and [IncrCounterWithLabels ["req"] 1] with a label
    of value ["200"] formats ["req.200:1.000000|c\n"]; streamed and
    flushed, exactly these bytes reach the server. *)
Theorem C6_line_format (s : Sink) (key : list string) (val : float32)
  (labels : list Label) :
  SetGauge s key val =
    pushMetric s (flattenKey key ++ ":" ++ fmt_f val ++ "|g" ++ LF)%string /\
  SetGaugeWithLabels s key val labels =
    pushMetric s (flattenKeyLabels key labels ++ ":" ++ fmt_f val ++ "|g" ++ LF)%string /\
  IncrCounter s key val =
    pushMetric s (flattenKey key ++ ":" ++ fmt_f val ++ "|c" ++ LF)%string /\
  IncrCounterWithLabels s key val labels =
    pushMetric s (flattenKeyLabels key labels ++ ":" ++ fmt_f val ++ "|c" ++ LF)%string /\
  AddSample s key val =
    pushMetric s (flattenKey key ++ ":" ++ fmt_f val ++ "|ms" ++ LF)%string /\
  AddSampleWithLabels s key val labels =
    pushMetric s (flattenKeyLabels key labels ++ ":" ++ fmt_f val ++ "|ms" ++ LF)%string /\
  EmitKey s key val =
    pushMetric s (flattenKey key ++ ":" ++ fmt_f val ++ "|kv" ++ LF)%string /\
  (is_finite val = true -> is_fixed_point6 (fmt_f val) = true) /\
  (is_finite val = false ->
   fmt_f val = "NaN" \/ fmt_f val = "+Inf" \/ fmt_f val = "-Inf") /\
  rendered gauge_a_b = Some ("a.b:3.500000|g" ++ LF)%string /\
  rendered counter_req = Some ("req.200:1.000000|c" ++ LF)%string /\
  (exists st,
     run streaming [App gauge_a_b; App counter_req; Work (EvRecv []);
                    Work (EvRecv []); Elapse flushInterval; Work (EvTick [])]
     = Ok st /\
     net (world st) =
       [list_byte_of_string ("a.b:3.500000|g" ++ LF)%string ++
        list_byte_of_string ("req.200:1.000000|c" ++ LF)%string]).
Proof.
  do 7 (split; [reflexivity|]).
  split; [apply fmt_f_finite|]. split.
  { destruct val as [sg|[|]| |sg m e]; simpl; try discriminate; auto. }
  split; [reflexivity|]. split; [reflexivity|].
  eexists. split; vm_compute; reflexivity.
Qed.

Lemma C6_line_format_witness :
  is_finite f32_neg_0_1 = true /\
  is_fixed_point6 (fmt_f f32_neg_0_1) = true /\
  fmt_f f32_neg_0_1 = "-0.100000".
Proof.
  split; [reflexivity|]. split; [|reflexivity].
  apply (C6_line_format (sink boot) [] f32_neg_0_1 []). reflexivity.
Defined.

(** C6 as stated fails on a value that is not finite: a gauge set to NaN
    is a well-formed [float32], the line queued for it is ["a:NaN|g\n"],
    and its value field is no fixed-point decimal. *)
Lemma C6_counterexample :
  is_float32 S754_nan = true /\
  rendered (CSetGauge ["a"] S754_nan) = Some ("a:NaN|g" ++ LF)%string /\
  (exists st, step streaming (App (CSetGauge ["a"] S754_nan)) = Ok st /\
              queued st = [("a:NaN|g" ++ LF)%string]) /\
  is_fixed_point6 (fmt_f S754_nan) = false.
Proof.
  split; [reflexivity|]. split; [reflexivity|]. split; [|reflexivity].
  eexists. split; vm_compute; reflexivity.
Qed.

End Formatting.

(* ------------------------------------------------------------------ *)
(** * Construction, enqueue and shutdown                                *)
(* ------------------------------------------------------------------ *)

Section LifeCycle.

(** Only a dial step of the goroutine adds to the dials made. *)
Lemma only_worker_dials (st st' : State) (a : Action) :
  step st a = Ok st' ->
  dialed (world st') <> dialed (world st) ->
  exists ok, a = Work (EvDial ok) /\ pc (worker st) = CONNECT /\
             dialed (world st') = dialed (world st) ++ [addr (sink st)].
Proof.
  intros H D. destruct a as [c|e|d].
  - destruct (step_App_frame _ _ _ H) as (_ & Ed & _). now rewrite Ed in D.
  - open_state st. simpl in *. destruct l, e; worker_cases H;
      try congruence; eauto.
  - simpl in H. inversion H; subst. unfold elapse in D. simpl in D. congruence.
Qed.

(** C10. For every address string, construction succeeds: [NewSink]
    returns a sink (never nil) and a nil error, whatever the address;
    it leaves the world as it was (no dial, no connection); the queue
    is a fresh channel of capacity 4096 and the goroutine stands before
    its first statement.  The first dial is the goroutine's: its first two
    steps create the ticker and dial the address, and no step of the
    program other than the goroutine's dial adds a dial. *)
Theorem C10_NewSink_total (a : string) (w : World) :
  exists st,
    NewSink a w = (Some st, None) /\
    addr (sink st) = a /\
    metricQueue (sink st) = make 4096 /\
    world st = w /\
    pc (worker st) = START /\
    sock (worker st) = None /\
    (forall ok, exists st',
       run st [Work EvStart; Work (EvDial ok)] = Ok st' /\
       dialed (world st') = dialed w ++ [a]) /\
    (forall s s' act,
       step s act = Ok s' -> dialed (world s') <> dialed (world s) ->
       exists ok, act = Work (EvDial ok)).
Proof.
  eexists. split; [reflexivity|]. simpl. repeat split.
  - intros ok. destruct ok; eexists; split; reflexivity.
  - intros s s' act H D.
    destruct (only_worker_dials _ _ _ H D) as (ok & E & _). eauto.
Qed.

(** C9. [Shutdown] works once: after a [Shutdown] that returned, a second
    one on the same sink panics, at once ("close of closed channel") and
    after any further run of the program, where it closes the closed
    channel again or, once the goroutine has set the field to nil, the
    nil channel.  It is never a no-op. *)
Theorem C9_second_Shutdown_panics (st st1 : State) :
  step st (App CShutdown) = Ok st1 ->
  step st1 (App CShutdown) = Panic CloseOfClosedChannel /\
  forall acts st2, run st1 acts = Ok st2 ->
    step st2 (App CShutdown) =
      match metricQueue (sink st2) with
      | Some _ => Panic CloseOfClosedChannel
      | None => Panic CloseOfNilChannel
      end.
Proof.
  intros H.
  assert (S1 : exists ch, metricQueue (sink st1) = Some ch /\ closed ch = true).
  { simpl in H. pose proof (Shutdown_cases (sink st)) as K.
    destruct (metricQueue (sink st)) as [ch|]; [|rewrite K in H; discriminate].
    destruct (closed ch); rewrite K in H; [discriminate|].
    inversion H; subst; simpl. eauto. }
  assert (P : forall s, shut_down s ->
              step s (App CShutdown) =
                match metricQueue (sink s) with
                | Some _ => Panic CloseOfClosedChannel
                | None => Panic CloseOfNilChannel
                end).
  { intros s Hs. unfold shut_down in Hs. simpl.
    pose proof (Shutdown_cases (sink s)) as K.
    destruct (metricQueue (sink s)) as [ch|]; [|now rewrite K].
    rewrite Hs in K. now rewrite K. }
  destruct S1 as (ch & Eq & Ec).
  assert (S : shut_down st1) by (unfold shut_down; now rewrite Eq).
  split.
  - rewrite (P st1 S), Eq. reflexivity.
  - intros acts st2 R. apply P. eapply run_shut_down; eassumption.
Qed.

Lemma C9_second_Shutdown_panics_witness :
  step streaming (App CShutdown) = Ok shut_idle /\
  step shut_idle (App CShutdown) = Panic CloseOfClosedChannel /\
  step finished (App CShutdown) = Panic CloseOfNilChannel.
Proof.
  split; [reflexivity|].
  split.
  - apply (C9_second_Shutdown_panics streaming). reflexivity.
  - reflexivity.
Defined.



End LifeCycle.

(* ------------------------------------------------------------------ *)
(** * The goroutine: termination                                        *)
(* ------------------------------------------------------------------ *)

Section Termination.

(** C5. When the goroutine, streaming or backing off, receives from a
    queue that is closed and drained, it goes to [QUIT] without touching
    the world; there its only step sets the sink's queue field to nil and
    returns; once returned it takes no step; and in every run from the
    moment the signal is observed the goroutine stays terminated, no byte
    reaches any peer and no dial is made. *)
Theorem C5_queue_closed_terminates (st : State) (rs : list IOResp) :
  closed_signal st ->
  pc (worker st) = STREAM \/ pc (worker st) = WAIT ->
  exists st1 st2,
    worker_step st (EvRecv rs) = Ok st1 /\
    pc (worker st1) = QUIT /\ world st1 = world st /\
    (forall e st', worker_step st1 e = Ok st' -> e = EvReturn) /\
    worker_step st1 EvReturn = Ok st2 /\
    pc (worker st2) = DONE /\ metricQueue (sink st2) = None /\
    ticker_on (worker st2) = false /\ world st2 = world st /\
    (forall e, worker_step st2 e = Blocked) /\
    (forall acts st3, run st1 acts = Ok st3 ->
       terminated st3 /\ net (world st3) = net (world st) /\
       dialed (world st3) = dialed (world st)).
Proof.
  intros (ch & Eq & Ec & Ei) P.
  open_state st. simpl in *. subst q.
  assert (R : recv (Some ch) = Ok (Some ch, (EmptyString, false))).
  { simpl. now rewrite Ei, Ec. }
  set (w1 := mkWorker QUIT sk bf wt ton tat tc).
  set (st1 := mkState (mkSink a (Some ch)) w1 (mkWorld t nw dl lg) hist).
  exists st1. eexists.
  assert (S1 : worker_step
                 (mkState (mkSink a (Some ch)) (mkWorker l sk bf wt ton tat tc)
                    (mkWorld t nw dl lg) hist) (EvRecv rs) = Ok st1).
  { destruct P as [-> | ->]; unfold worker_step; cbn [pc worker sink metricQueue];
      rewrite R; reflexivity. }
  split; [exact S1|]. split; [reflexivity|]. split; [reflexivity|].
  split.
  { intros e st' H. destruct e; unfold st1, w1 in H; worker_cases H. reflexivity. }
  split; [reflexivity|]. simpl. do 4 (split; [reflexivity|]).
  split.
  { intros e. destruct e; reflexivity. }
  intros acts st3 H.
  apply (run_terminated acts st1); [left; reflexivity | exact H].
Qed.

Lemma C5_queue_closed_terminates_witness :
  closed_signal shut_idle /\
  (pc (worker shut_idle) = STREAM \/ pc (worker shut_idle) = WAIT) /\
  exists st1 st2,
    worker_step shut_idle (EvRecv []) = Ok st1 /\ pc (worker st1) = QUIT /\
    worker_step st1 EvReturn = Ok st2 /\
    pc (worker st2) = DONE /\ metricQueue (sink st2) = None.
Proof.
  assert (C : closed_signal shut_idle).
  { eexists. repeat split; reflexivity. }
  split; [exact C|]. split; [left; reflexivity|].
  destruct (C5_queue_closed_terminates shut_idle [] C (or_introl eq_refl))
    as (st1 & st2 & S1 & P1 & _ & _ & S2 & P2 & Q2 & _).
  exists st1, st2. repeat split; assumption.
Defined.

(** C3, as the code has it.  Once the goroutine has returned (it has then
    observed the closed queue and set the sink's queue field to nil), no
    run of the program writes a byte to any peer or dials, the goroutine
    stays returned, and every emit call returns normally and changes
    nothing. *)
Theorem C3_after_worker_returned (a : string) (t : N) (st : State) :
  reachable a t st ->
  pc (worker st) = DONE ->
  forall acts st', run st acts = Ok st' ->
    net (world st') = net (world st) /\
    dialed (world st') = dialed (world st) /\
    pc (worker st') = DONE /\
    forall c, is_emit c = true -> step st' (App c) = Ok st'.
Proof.
  intros R P acts st' H.
  destruct (reachable_Inv _ _ _ R) as [taken [_ Id _ _ _ _]].
  pose proof (Id P) as Q.
  destruct (run_terminated acts st st' (or_intror P) H) as (_ & N & D).
  destruct (run_done acts st st' P Q H) as (P' & Q').
  repeat split; try assumption.
  intros c Hc. destruct (is_emit_rendered c Hc) as [m Hm].
  simpl. rewrite (invoke_rendered _ c m Hm).
  pose proof (pushMetric_cases (sink st') m) as K. rewrite Q' in K. rewrite K.
  unfold newly_queued, len. rewrite Q'. simpl. rewrite app_nil_r.
  destruct st'; reflexivity.
Qed.

Lemma C3_after_worker_returned_witness :
  reachable statsite_addr 0 finished /\
  pc (worker finished) = DONE /\
  step finished (App gauge_a_b) = Ok finished.
Proof.
  assert (R : reachable statsite_addr 0 finished).
  { exists boot, [Work EvStart; Work (EvDial true); App CShutdown;
                  Work (EvRecv []); Work EvReturn]. split; reflexivity. }
  split; [exact R|]. split; [reflexivity|].
  exact (proj2 (proj2 (proj2
           (C3_after_worker_returned statsite_addr 0 finished R eq_refl
              [] finished eq_refl))) gauge_a_b eq_refl).
Defined.

(** C3 as stated fails twice on a sink shut down while one line waits in
    its queue: [Shutdown] has returned, yet the goroutine still receives
    the line and the next flush writes its bytes to the peer; and an emit
    call made after [Shutdown] returned, before the goroutine has seen the
    closed queue, panics with "send on closed channel". *)
Lemma C3_counterexample :
  reachable statsite_addr 0 streaming /\
  run streaming [App gauge_a_b; App CShutdown] = Ok shut_with_backlog /\
  net (world shut_with_backlog) = [[]] /\
  (exists st,
     run shut_with_backlog
       [Work (EvRecv []); Elapse flushInterval; Work (EvTick [])] = Ok st /\
     net (world st) = [list_byte_of_string ("a.b:3.500000|g" ++ LF)%string]) /\
  step shut_with_backlog (App gauge_a_b) = Panic SendOnClosedChannel.
Proof.
  split.
  { exists boot, [Work EvStart; Work (EvDial true)]. split; reflexivity. }
  split; [reflexivity|]. split; [reflexivity|]. split; [|reflexivity].
  eexists. split; vm_compute; reflexivity.
Qed.

End Termination.

(* ------------------------------------------------------------------ *)
(** * The goroutine: transport errors and back-off                      *)
(* ------------------------------------------------------------------ *)

Section BackOff.

Lemma emit_open_Ok (st : State) (c : Call) :
  queue_open st -> is_emit c = true -> exists st', step st (App c) = Ok st'.
Proof.
  intros (ch & Eq & Ec) Hc. destruct (is_emit_rendered c Hc) as [m Hm].
  simpl. rewrite (invoke_rendered _ c m Hm).
  pose proof (pushMetric_cases (sink st) m) as K. rewrite Eq, Ec in K.
  destruct (List.length (items ch) <? capacity ch); rewrite K; eauto.
Qed.

(** What a transport error does to the state. *)
Lemma transport_error_step (st : State) (e : WorkerEv) (line : LogLine) :
  transport_error st e = Some line ->
  exists st',
    worker_step st e = Ok st' /\
    pc (worker st') = WAIT /\
    wait (worker st') = Some (now (world st) + 5 * Second)%N /\
    now (world st') = now (world st) /\
    dialed (world st') =
      dialed (world st) ++ match pc (worker st) with
                           | CONNECT => [addr (sink st)]
                           | _ => []
                           end /\
    logged (world st') = logged (world st) ++ [line] /\
    addr (sink st') = addr (sink st) /\
    (queue_open st -> queue_open st').
Proof.
  intros H. open_state st. unfold transport_error in H. simpl in H.
  destruct l, e; try discriminate.
  - destruct ok; [discriminate|]. inversion H; subst.
    eexists. split; [reflexivity|]. simpl. rewrite ?app_nil_r.
    repeat split; auto.
  - destruct (recv q) as [[q' [m ok]]| |] eqn:R; try discriminate.
    destruct ok; try discriminate. destruct bf as [b|]; try discriminate.
    destruct (Write b nw rs (list_byte_of_string m)) as [[[[b' nw'] rs'] f]|] eqn:W;
      try discriminate.
    destruct f; try discriminate. inversion H; subst.
    unfold worker_step. simpl. rewrite R. simpl. rewrite W.
    eexists. split; [reflexivity|]. simpl. rewrite ?app_nil_r.
    repeat split; auto.
    intros (ch & Eq & Ec). simpl in Eq. subst q.
    apply recv_Ok in R. destruct R as (ch' & E1 & [(_ & rest & _ & ->) | (K & _)]);
      [|discriminate].
    inversion E1; subst. eexists. split; [reflexivity | exact Ec].
  - destruct tc; try discriminate. destruct bf as [b|]; try discriminate.
    destruct (Flush b nw rs) as [[[b' nw'] rs'] f] eqn:F.
    destruct f; try discriminate. inversion H; subst.
    unfold worker_step. simpl. rewrite F.
    eexists. split; [reflexivity|]. simpl. rewrite ?app_nil_r.
    repeat split; auto.
Qed.

(** After the wait the goroutine dials again. *)
Lemma retry_after_wait (st : State) (T d : N) (ok : bool) :
  pc (worker st) = WAIT -> wait (worker st) = Some T ->
  (T <= now (world st) + d)%N ->
  exists st',
    run st [Elapse d; Work EvTimeout; Work (EvDial ok)] = Ok st' /\
    dialed (world st') = dialed (world st) ++ [addr (sink st)] /\
    pc (worker st') = if ok then STREAM else WAIT.
Proof.
  intros P W L. open_state st. simpl in *. subst l wt.
  unfold elapse. simpl.
  destruct (ton && (tat <=? t + d)%N); unfold worker_step; simpl;
    (destruct (N.leb_spec T (t + d)); [|lia]); simpl;
    destruct ok; eexists; repeat split; reflexivity.
Qed.

(** The goroutine reaches [QUIT] only by receiving from a closed, drained
    queue; no transport error is involved. *)
Lemma quit_only_by_closed_signal (st st' : State) (e : WorkerEv) :
  worker_step st e = Ok st' -> pc (worker st') = QUIT ->
  closed_signal st /\ transport_error st e = None /\
  (pc (worker st) = STREAM \/ pc (worker st) = WAIT) /\
  exists rs, e = EvRecv rs.
Proof.
  intros H Q. open_state st. unfold transport_error, closed_signal. simpl in *.
  destruct l, e; worker_cases H; try discriminate;
    match goal with
    | K : recv _ = Ok _ |- _ =>
        pose proof K as K';
        apply recv_Ok in K';
        destruct K' as (ch & -> & [(Hb & _) | (Hb & Ei & Ec & _)]);
        subst; try discriminate;
        rewrite ?K; repeat split; eauto
    end.
Qed.

(** In a reachable state only [Shutdown] closes the queue. *)
Lemma only_Shutdown_closes (st st' : State) (act : Action) :
  Inv st -> step st act = Ok st' ->
  ~ shut_down st -> shut_down st' -> act = App CShutdown.
Proof.
  intros [taken [_ _ Iqt _ _ _]] H N S. destruct act as [c|e|d].
  - simpl in H.
    destruct (invoke (sink st) c) as [s'| |p] eqn:E; try discriminate.
    inversion H; subst. unfold shut_down in *. simpl in *.
    destruct (invoke_Ok _ _ _ E)
      as [[-> _] | [(ch & m & Eq & Ec & _ & _ & -> & _) | (ch & -> & _)]];
      [contradiction | simpl in S; discriminate | reflexivity].
  - exfalso. apply N. clear N. open_state st. unfold shut_down in *. simpl in *.
    destruct l, e; worker_cases H; auto;
      try match goal with
        | K : recv _ = Ok _ |- _ =>
            apply recv_Ok in K;
            destruct K as (ch & -> & [(_ & rest & _ & K) | (_ & _ & Ec & K)]);
            inversion K; subst; simpl in *; auto
        end.
    destruct (Iqt eq_refl) as (ch & Eq & Ec & _). simpl in Eq. subst q. exact Ec.
  - simpl in H. inversion H; subst. unfold shut_down, elapse in *. simpl in *.
    contradiction.
Qed.

(** While the timer of a back-off has not fired, the goroutine waits or
    has terminated; it sends nothing and dials nothing. *)
Lemma backoff_quiet (T : N) (acts : list Action) :
  forall st st',
  (pc (worker st) = WAIT /\ wait (worker st) = Some T) \/ terminated st ->
  run st acts = Ok st' -> (now (world st') < T)%N ->
  ((pc (worker st') = WAIT /\ wait (worker st') = Some T) \/ terminated st') /\
  net (world st') = net (world st) /\ dialed (world st') = dialed (world st).
Proof.
  induction acts as [|act acts IH]; intros st st' P H L; simpl in H.
  { inversion H; subst. auto. }
  destruct (step st act) as [st1| |p] eqn:E; try discriminate.
  pose proof (run_now _ _ _ H) as M1.
  assert (K : ((pc (worker st1) = WAIT /\ wait (worker st1) = Some T) \/
               terminated st1) /\
              net (world st1) = net (world st) /\
              dialed (world st1) = dialed (world st)).
  { destruct P as [[P W] | P].
    - destruct act as [c|e|d].
      + destruct (step_App_frame _ _ _ E) as (Ew & Ed & _). rewrite Ew, Ed. auto.
      + clear IH H. open_state st. unfold terminated. simpl in *. subst l wt.
        destruct e; worker_cases E; auto.
        exfalso. match goal with K : (T <=? t)%N = true |- _ =>
                   apply N.leb_le in K; lia end.
      + simpl in E. inversion E; subst. unfold elapse, terminated. simpl.
        destruct (ticker_on (worker st) && _); simpl; auto.
    - destruct (step_terminated _ _ _ P E) as (T1 & N1 & D1). auto. }
  destruct K as (P1 & N1 & D1).
  destruct (IH st1 st' P1 H L) as (P2 & N2 & D2).
  split; [exact P2|]. split; congruence.
Qed.

(** C2. A failed dial, a failed write and a failed flush are each
    handled inside the goroutine: the step completes (it does not panic),
    logs the error, arms the five-second timer and goes to [WAIT]; a sink
    whose queue was open keeps it open and every emit call still returns
    normally.  After the wait the goroutine dials the same address again.
    The goroutine reaches [QUIT] only by receiving from a closed and
    drained queue, in a step that meets no transport error, and in a
    reachable state only [Shutdown] closes the queue. *)
Theorem C2_transport_errors_back_off (a0 : string) (t0 : N) (st : State)
  (e : WorkerEv) (line : LogLine) :
  reachable a0 t0 st ->
  transport_error st e = Some line ->
  exists st',
    step st (Work e) = Ok st' /\
    pc (worker st') = WAIT /\
    wait (worker st') = Some (now (world st) + 5 * Second)%N /\
    logged (world st') = logged (world st) ++ [line] /\
    (queue_open st ->
     queue_open st' /\
     forall c, is_emit c = true -> exists st'', step st' (App c) = Ok st'') /\
    (forall d ok, (5 * Second <= d)%N ->
       exists st'',
         run st' [Elapse d; Work EvTimeout; Work (EvDial ok)] = Ok st'' /\
         dialed (world st'') = dialed (world st') ++ [addr (sink st)]) /\
    (forall s e' s',
       worker_step s e' = Ok s' -> pc (worker s') = QUIT ->
       closed_signal s /\ transport_error s e' = None) /\
    (forall s act s',
       reachable a0 t0 s -> step s act = Ok s' ->
       ~ shut_down s -> shut_down s' -> act = App CShutdown).
Proof.
  intros R H.
  destruct (transport_error_step _ _ _ H)
    as (st' & S & P & W & N & D & Lg & A & Q).
  exists st'. split; [exact S|]. do 3 (split; [assumption|]).
  split.
  { intros O. split; [auto|]. intros c Hc. apply emit_open_Ok; auto. }
  split.
  { intros d ok Hd.
    destruct (retry_after_wait st' (now (world st) + 5 * Second)%N d ok P W)
      as (st'' & Rn & Dl & _); [rewrite N; lia|].
    exists st''. split; [exact Rn|]. now rewrite Dl, A. }
  split.
  { intros s e' s' Hs Hq.
    destruct (quit_only_by_closed_signal _ _ _ Hs Hq) as (C & E & _). auto. }
  intros s act s' Rs Hs. apply only_Shutdown_closes; [|exact Hs].
  eapply reachable_Inv; eassumption.
Qed.

Lemma C2_transport_errors_back_off_witness :
  reachable statsite_addr 0 connecting /\
  transport_error connecting (EvDial false) = Some ErrConnecting /\
  exists st',
    step connecting (Work (EvDial false)) = Ok st' /\
    pc (worker st') = WAIT /\
    logged (world st') = [ErrConnecting].
Proof.
  assert (R : reachable statsite_addr 0 connecting).
  { exists boot, [Work EvStart]. split; reflexivity. }
  split; [exact R|]. split; [reflexivity|].
  destruct (C2_transport_errors_back_off statsite_addr 0 connecting
              (EvDial false) ErrConnecting R eq_refl)
    as (st' & S & P & _ & L & _).
  exists st'. repeat split; assumption.
Defined.

(** C4. Every entry into [WAIT] arms a timer of exactly five seconds
    (5000000000 ns).  While the goroutine waits with its timer set for
    [T]: each line it receives from the queue is removed from the queue
    and dropped, the writer, the peers and the timer being left as they
    are; the timeout cannot fire before [T]; from [T] on it fires and
    takes the goroutine to [CONNECT], where its only step is to dial the
    address again; and in every run that ends before [T] the goroutine is
    still waiting on the same timer or has terminated, and no byte has
    been sent and no dial made. *)
Theorem C4_backoff_drains_then_reconnects (st : State) (T : N) :
  pc (worker st) = WAIT -> wait (worker st) = Some T ->
  (forall s e s',
     worker_step s e = Ok s' -> pc (worker s) <> WAIT -> pc (worker s') = WAIT ->
     wait (worker s') = Some (now (world s) + 5000000000)%N) /\
  (forall rs ch m rest,
     metricQueue (sink st) = Some ch -> items ch = m :: rest ->
     worker_step st (EvRecv rs) =
       Ok (mkState (mkSink (addr (sink st))
                      (Some (mkChan rest (capacity ch) (closed ch))))
             (worker st) (world st) (history st))) /\
  ((now (world st) < T)%N -> worker_step st EvTimeout = Blocked) /\
  ((T <= now (world st))%N ->
   exists st1,
     worker_step st EvTimeout = Ok st1 /\
     st1 = mkState (sink st) (set_pc (worker st) CONNECT) (world st) (history st) /\
     (forall e s', worker_step st1 e = Ok s' ->
        exists ok, e = EvDial ok /\
                   dialed (world s') = dialed (world st) ++ [addr (sink st)])) /\
  (forall acts s,
     run st acts = Ok s -> (now (world s) < T)%N ->
     ((pc (worker s) = WAIT /\ wait (worker s) = Some T) \/ terminated s) /\
     net (world s) = net (world st) /\ dialed (world s) = dialed (world st)).
Proof.
  intros P W. split.
  { intros s e s' H N Q. clear P W. open_state s. simpl in *.
    destruct l, e; worker_cases H; try discriminate; try congruence; reflexivity. }
  split.
  { intros rs ch m rest Eq Ei. open_state st. simpl in *. subst l q.
    unfold worker_step. simpl. rewrite Ei. reflexivity. }
  split.
  { intros L. open_state st. simpl in *. subst l wt. unfold worker_step. simpl.
    destruct (N.leb_spec T t); [lia | reflexivity]. }
  split.
  { intros L. eexists. split; [|split; [reflexivity|]].
    - open_state st. simpl in *. subst l wt. unfold worker_step. simpl.
      destruct (N.leb_spec T t); [reflexivity | lia].
    - intros e s' H. open_state st. simpl in *.
      destruct e; worker_cases H; eauto. }
  intros acts s H L. apply (backoff_quiet T acts st s); auto.
Qed.

Lemma C4_backoff_drains_then_reconnects_witness :
  pc (worker backing_off) = WAIT /\
  wait (worker backing_off) = Some 5000000000%N /\
  worker_step backing_off EvTimeout = Blocked.
Proof.
  split; [reflexivity|]. split; [reflexivity|].
  apply (C4_backoff_drains_then_reconnects backing_off 5000000000 eq_refl eq_refl).
  reflexivity.
Defined.

End BackOff.

(* ------------------------------------------------------------------ *)
(** * Order of delivery                                                 *)
(* ------------------------------------------------------------------ *)

Section Delivery.

(** A step of the goroutine takes lines from the front of the queue and
    leaves the history alone. *)
Lemma step_Work_frame (st st' : State) (e : WorkerEv) :
  step st (Work e) = Ok st' ->
  history st' = history st /\ exists gone, queued st = gone ++ queued st'.
Proof.
  intros H. open_state st. unfold queued. simpl in *.
  destruct l, e; worker_cases H; try (split; [reflexivity|]);
    try (exists []; reflexivity);
    try match goal with
      | K : recv _ = Ok _ |- _ =>
          apply recv_Ok in K;
          destruct K as (ch & -> & [(_ & rest & Ei & K) | (_ & _ & _ & K)]);
          inversion K; subst; simpl;
          [rewrite Ei; exists [s]; reflexivity | exists []; reflexivity]
      end.
  exists (match q with Some ch => items ch | None => [] end).
  now rewrite app_nil_r.
Qed.

(** While streaming, a receive from a queue that holds a line always
    completes: the buffered write returns. *)
Lemma streaming_receive_progress (a0 : string) (t0 : N) (st : State)
  (rs : list IOResp) :
  reachable a0 t0 st -> pc (worker st) = STREAM -> queued st <> [] ->
  exists st', step st (Work (EvRecv rs)) = Ok st'.
Proof.
  intros R P Q. destruct (reachable_Inv _ _ _ R) as [taken [_ _ _ _ Is _]].
  destruct (Is P) as (c & b & _ & _ & _ & Eb & _). clear R.
  open_state st. unfold queued in Q. simpl in *. subst l bf.
  unfold worker_step. simpl.
  destruct q as [ch|]; [|congruence]. simpl.
  destruct (items ch) as [|m rest]; [congruence|]. simpl.
  destruct (Write_total b nw rs (list_byte_of_string m)) as [[[[b' nw'] rs'] f] W].
  rewrite W. destruct f; eauto.
Qed.

(** C8. The history lists the lines the queue accepted, in the order of
    the calls: a call appends to it exactly what it appends to the queue,
    and the goroutine only takes lines from the front of the queue.  In
    every reachable state, what the peer of any connection has received
    is an initial part of the bytes of a run of consecutive lines of that
    history, in their order, each once; and while the goroutine streams,
    the lines it has taken during the session are, byte for byte and in
    order, what the peer has received followed by what the writer still
    buffers, with the queue holding the lines accepted after them. *)
Theorem C8_fifo_per_session (a : string) (t : N) (st : State) :
  reachable a t st ->
  (forall c, c < List.length (net (world st)) ->
     exists before session after,
       history st = before ++ session ++ after /\
       is_prefix (received st c) (bytes_of_lines session)) /\
  (pc (worker st) = STREAM ->
     exists c b before session,
       sock (worker st) = Some c /\ buffered (worker st) = Some b /\
       history st = before ++ session ++ queued st /\
       received st c ++ buf b = bytes_of_lines session) /\
  (forall act st', step st act = Ok st' ->
     match act with
     | App _ =>
         exists new, queued st' = queued st ++ new /\
                     history st' = history st ++ new
     | Work _ =>
         history st' = history st /\ exists gone, queued st = gone ++ queued st'
     | Elapse _ => history st' = history st /\ queued st' = queued st
     end).
Proof.
  intros R. destruct (reachable_Inv _ _ _ R) as [taken [Iq Id _ _ Is In]].
  split; [exact In|]. split.
  - intros P. destruct (Is P) as (c & b & before & session & Es & Eb & _ & _ & _ & _ & Et & Er).
    exists c, b, before, session. do 2 (split; [assumption|]).
    split; [|exact Er]. unfold queued.
    destruct (metricQueue (sink st)) as [ch|].
    + destruct Iq as (_ & _ & Hh). rewrite Hh, Et, <- app_assoc. reflexivity.
    + congruence.
  - intros act st' H. destruct act as [c|e|d].
    + destruct (step_App_frame _ _ _ H) as (_ & _ & K). exact K.
    + exact (step_Work_frame _ _ _ H).
    + simpl in H. inversion H; subst. unfold queued, elapse. simpl. auto.
Qed.

Lemma C8_fifo_per_session_witness :
  reachable statsite_addr 0 delivered_two /\
  exists before session after,
    history delivered_two = before ++ session ++ after /\
    is_prefix (received delivered_two 0) (bytes_of_lines session).
Proof.
  assert (R : reachable statsite_addr 0 delivered_two).
  { exists boot, [Work EvStart; Work (EvDial true); App gauge_a_b; App counter_req;
                  Work (EvRecv []); Work (EvRecv []); Elapse flushInterval;
                  Work (EvTick [])].
    split; vm_compute; reflexivity. }
  split; [exact R|].
  apply (proj1 (C8_fifo_per_session statsite_addr 0 delivered_two R)).
  vm_compute. apply le_n.
Defined.

End Delivery.

(* ------------------------------------------------------------------ *)
(** * More about the sink's life cycle                                  *)
(* ------------------------------------------------------------------ *)

Section MoreLifeCycle.

(** X1. In a reachable state an emit call panics exactly when [Shutdown]
    has closed the queue and the goroutine has not yet returned (it has
    not yet set the queue field to nil); the panic is then "send on closed
    channel", and an emit never panics in any other way. *)
Theorem X1_emit_panics_iff (a0 : string) (t0 : N) (st : State) (c : Call) :
  reachable a0 t0 st -> is_emit c = true ->
  (step st (App c) = Panic SendOnClosedChannel <->
   shut_down st /\ pc (worker st) <> DONE) /\
  (forall p, step st (App c) = Panic p -> p = SendOnClosedChannel).
Proof.
  intros R Hc. destruct (reachable_Inv _ _ _ R) as [taken [Iq Id _ _ _ _]].
  destruct (is_emit_rendered c Hc) as [m Hm].
  simpl. rewrite (invoke_rendered _ c m Hm).
  pose proof (pushMetric_cases (sink st) m) as K. unfold shut_down.
  destruct (metricQueue (sink st)) as [ch|] eqn:Eq.
  - assert (ND : pc (worker st) <> DONE) by (intros D; apply Id in D; congruence).
    destruct (closed ch) eqn:Ec.
    + rewrite K. split; [tauto|]. intros p Hp. congruence.
    + destruct (List.length (items ch) <? capacity ch); rewrite K;
        (split; [split; [discriminate | intros [? _]; discriminate]
                | intros p Hp; discriminate]).
  - rewrite K. split; [|intros p Hp; discriminate].
    split; [discriminate|]. intros [_ ND]. contradiction.
Qed.

Lemma X1_emit_panics_iff_witness :
  reachable statsite_addr 0 shut_idle /\
  is_emit gauge_a_b = true /\
  shut_down shut_idle /\
  step shut_idle (App gauge_a_b) = Panic SendOnClosedChannel.
Proof.
  assert (R : reachable statsite_addr 0 shut_idle).
  { exists boot, [Work EvStart; Work (EvDial true); App CShutdown].
    split; reflexivity. }
  split; [exact R|]. split; [reflexivity|].
  assert (S : shut_down shut_idle) by reflexivity.
  split; [exact S|].
  apply (proj1 (X1_emit_panics_iff statsite_addr 0 shut_idle gauge_a_b R eq_refl)).
  split; [exact S | discriminate].
Defined.

(** No step changes the address of the sink, and a step adds at most one
    dial, to that address. *)
Lemma step_addr (st st' : State) (act : Action) :
  step st act = Ok st' ->
  addr (sink st') = addr (sink st) /\
  (dialed (world st') = dialed (world st) \/
   dialed (world st') = dialed (world st) ++ [addr (sink st)]).
Proof.
  intros H. destruct act as [c|e|d].
  - destruct (step_App_frame _ _ _ H) as (_ & Ed & _). rewrite Ed.
    split; [|left; reflexivity]. simpl in H.
    destruct (invoke (sink st) c) as [s'| |p] eqn:E; try discriminate.
    inversion H; subst; simpl.
    destruct (invoke_Ok _ _ _ E)
      as [[-> _] | [(ch & m & _ & _ & _ & _ & -> & _) | (ch & _ & _ & _ & -> & _)]];
      reflexivity.
  - open_state st. simpl in *. destruct l, e; worker_cases H; auto.
  - simpl in H. inversion H; subst. unfold elapse. simpl. auto.
Qed.

(** X2. A sink keeps the address it was created with, and every dial its
    goroutine ever makes is to that address. *)
Theorem X2_dials_only_its_address (a0 : string) (t0 : N) (st : State) :
  reachable a0 t0 st ->
  addr (sink st) = a0 /\ Forall (fun d => d = a0) (dialed (world st)).
Proof.
  intros (st0 & acts & H0 & H). simpl in H0. inversion H0; subst; clear H0.
  set (st0 := mkState _ _ _ _) in H.
  assert (I0 : addr (sink st0) = a0 /\ Forall (fun d => d = a0) (dialed (world st0)))
    by (split; [reflexivity | constructor]).
  clearbody st0. revert st0 H I0.
  induction acts as [|act acts IH]; intros st0 H I0; simpl in H.
  - inversion H; subst. exact I0.
  - destruct (step st0 act) as [st1| |p] eqn:E; try discriminate.
    apply (IH st1 H). destruct I0 as [A D].
    destruct (step_addr _ _ _ E) as [A1 [D1 | D1]]; rewrite A1, D1;
      split; auto.
    apply Forall_app. split; [exact D|]. constructor; [exact A | constructor].
Qed.

Lemma X2_dials_only_its_address_witness :
  reachable statsite_addr 0 backing_off /\
  addr (sink backing_off) = statsite_addr /\
  Forall (fun d => d = statsite_addr) (dialed (world backing_off)).
Proof.
  assert (R : reachable statsite_addr 0 backing_off).
  { exists boot, [Work EvStart; Work (EvDial false)]. split; reflexivity. }
  split; [exact R|].
  exact (X2_dials_only_its_address statsite_addr 0 backing_off R).
Defined.

End MoreLifeCycle.

(* ------------------------------------------------------------------ *)
(** * More about streaming                                              *)
(* ------------------------------------------------------------------ *)

Section MoreStreaming.

Lemma nth_app_nil (nw : Net) (c : nat) :
  nth c (nw ++ [[]]) [] = nth c nw [].
Proof.
  destruct (Nat.lt_ge_cases c (List.length nw)) as [L|L].
  - now apply app_nth1.
  - rewrite app_nth2 by exact L. rewrite (nth_overflow nw) by exact L.
    destruct (c - List.length nw) as [|[|k]]; reflexivity.
Qed.

Lemma sent_on_frame (c0 : nat) (nw nw' : Net) (out : list byte) (c : nat) :
  sent_on c0 nw nw' out ->
  is_prefix (nth c nw []) (nth c nw' []) /\
  (nth c nw' [] <> nth c nw [] -> c = c0).
Proof.
  intros (_ & A & B). destruct (Nat.eq_dec c c0) as [->|N].
  - split; [exists out; exact A | reflexivity].
  - rewrite (B c N). split; [exists []; now rewrite app_nil_r | congruence].
Qed.

Lemma is_prefix_refl (l : list byte) : is_prefix l l.
Proof. exists []. now rewrite app_nil_r. Qed.

(** X3. Bytes reach a peer only from the goroutine while it streams, and
    only on the connection it currently holds: a step that changes what
    the peer of connection [c] has received is a receive or a tick of the
    goroutine in [STREAM] with [sock = c]; and it only appends (what a
    peer has received is never taken back or rewritten). *)
Theorem X3_only_current_connection_written (a0 : string) (t0 : N)
  (st st' : State) (act : Action) (c : nat) :
  reachable a0 t0 st -> step st act = Ok st' ->
  is_prefix (received st c) (received st' c) /\
  (received st' c <> received st c ->
   pc (worker st) = STREAM /\ sock (worker st) = Some c /\
   exists rs, act = Work (EvRecv rs) \/ act = Work (EvTick rs)).
Proof.
  intros R H. destruct (reachable_Inv _ _ _ R) as [taken [_ _ _ _ Is _]].
  clear R. unfold received in *. destruct act as [cl|e|d].
  - destruct (step_App_frame _ _ _ H) as (_ & -> & _).
    split; [apply is_prefix_refl | congruence].
  - open_state st. simpl in *. destruct l, e;
      try (worker_cases H; rewrite ?nth_app_nil;
           (split; [apply is_prefix_refl | congruence])).
    + (* receive while streaming *)
      destruct (Is eq_refl) as (c0 & b & _ & _ & -> & -> & Ew & Hc & _ & Hl & _).
      unfold worker_step in H. simpl in H.
      destruct (recv q) as [[q' [m ok]]| |]; try discriminate.
      destruct ok; simpl in H;
        [|inversion H; subst; simpl; split; [apply is_prefix_refl | congruence]].
      destruct (Write b nw rs (list_byte_of_string m)) as [[[[b' nw'] rs'] f]|] eqn:W;
        try discriminate.
      rewrite <- Ew in Hc.
      destruct (Write_spec _ _ _ _ _ _ _ _ Hc Hl W) as (out & _ & So & _).
      destruct (sent_on_frame _ _ _ _ c So) as [P Q].
      destruct f; inversion H; subst; simpl;
        (split; [exact P|]; intros N; rewrite (Q N); eauto).
    + (* tick while streaming *)
      destruct (Is eq_refl) as (c0 & b & _ & _ & -> & -> & Ew & Hc & _ & Hl & _).
      unfold worker_step in H. simpl in H. destruct tc; try discriminate.
      destruct (Flush b nw rs) as [[[b' nw'] rs'] f] eqn:F.
      rewrite <- Ew in Hc.
      destruct (Flush_spec _ _ _ _ _ _ _ Hc F) as (out & So & _).
      destruct (sent_on_frame _ _ _ _ c So) as [P Q].
      destruct f; inversion H; subst; simpl;
        (split; [exact P|]; intros N; rewrite (Q N); eauto).
  - simpl in H. inversion H; subst. unfold elapse. simpl.
    split; [apply is_prefix_refl | congruence].
Qed.

Lemma X3_only_current_connection_written_witness :
  reachable statsite_addr 0 streaming_one_buffered /\
  exists st',
    step streaming_one_buffered (Work (EvTick [])) = Ok st' /\
    is_prefix (received streaming_one_buffered 0) (received st' 0).
Proof.
  assert (R : reachable statsite_addr 0 streaming_one_buffered).
  { exists boot, [Work EvStart; Work (EvDial true); App gauge_a_b;
                  Work (EvRecv []); Elapse flushInterval].
    split; vm_compute; reflexivity. }
  split; [exact R|]. eexists. split; [vm_compute; reflexivity|].
  eapply (proj1 (X3_only_current_connection_written statsite_addr 0
                   streaming_one_buffered _ (Work (EvTick [])) 0 R _)).
  Unshelve. vm_compute. reflexivity.
Defined.

(** X4. While the goroutine streams, a line that fits in the free space
    of its writer is only copied into the buffer: the receive completes
    whatever the state of the connection, no byte goes out, nothing is
    logged and the goroutine stays in [STREAM].  A dead connection is
    therefore not noticed when such a line is taken. *)
Theorem X4_small_line_is_buffered (a0 : string) (t0 : N) (st : State)
  (rs : list IOResp) (ch : Chan) (m : string) (rest : list string) (b : Writer) :
  reachable a0 t0 st -> pc (worker st) = STREAM ->
  metricQueue (sink st) = Some ch -> items ch = m :: rest ->
  buffered (worker st) = Some b ->
  List.length (buf b) + List.length (list_byte_of_string m) <= defaultBufSize ->
  exists st',
    step st (Work (EvRecv rs)) = Ok st' /\
    pc (worker st') = STREAM /\ world st' = world st /\
    buffered (worker st') =
      Some (mkWriter (wr b) (buf b ++ list_byte_of_string m) false) /\
    queued st' = rest /\ history st' = history st.
Proof.
  intros R P Eq Ei Eb Hl.
  destruct (reachable_Inv _ _ _ R) as [taken [_ _ _ _ Is _]]. clear R.
  destruct (Is P) as (c0 & b0 & _ & _ & _ & Eb0 & _ & _ & Ee & _).
  rewrite Eb in Eb0. inversion Eb0; subst b0. clear Eb0 Is.
  open_state st. unfold queued. simpl in *. subst l q bf.
  unfold worker_step. simpl. rewrite Ei. simpl.
  assert (W : Write b nw rs (list_byte_of_string m) =
              Some (mkWriter (wr b) (buf b ++ list_byte_of_string m) false,
                    nw, rs, false)).
  { unfold Write. rewrite Write_loop_stop.
    - now rewrite Ee.
    - apply andb_false_iff. left. apply Nat.ltb_ge. unfold Available. lia. }
  rewrite W. eexists. split; [reflexivity|]. simpl. repeat split.
Qed.

Lemma X4_small_line_is_buffered_witness :
  reachable statsite_addr 0 streaming_one_queued /\
  exists st',
    step streaming_one_queued (Work (EvRecv [WriteFail 0])) = Ok st' /\
    pc (worker st') = STREAM /\ world st' = world streaming_one_queued.
Proof.
  assert (R : reachable statsite_addr 0 streaming_one_queued).
  { exists boot, [Work EvStart; Work (EvDial true); App gauge_a_b].
    split; vm_compute; reflexivity. }
  split; [exact R|].
  destruct (X4_small_line_is_buffered statsite_addr 0 streaming_one_queued
              [WriteFail 0]
              (mkChan [("a.b:3.500000|g" ++ LF)%string] 4096 false)
              ("a.b:3.500000|g" ++ LF)%string [] (NewWriter 0)
              R eq_refl eq_refl eq_refl eq_refl)
    as (st' & S & P & W & _).
  { vm_compute. repeat constructor. }
  exists st'. repeat split; assumption.
Defined.



(** X6. A tick that finds the writer empty writes nothing: whatever the
    state of the connection the step completes, the goroutine stays in
    [STREAM] and neither the queue nor the world changes.  An idle sink
    thus never notices that its connection has died. *)
Theorem X6_idle_tick_sends_nothing (a0 : string) (t0 : N) (st : State)
  (rs : list IOResp) (b : Writer) :
  reachable a0 t0 st -> pc (worker st) = STREAM ->
  buffered (worker st) = Some b -> buf b = [] ->
  ticker_C (worker st) = true ->
  exists st',
    step st (Work (EvTick rs)) = Ok st' /\
    pc (worker st') = STREAM /\ buffered (worker st') = Some b /\
    sink st' = sink st /\ world st' = world st /\ history st' = history st.
Proof.
  intros R P Eb B Tc.
  destruct (reachable_Inv _ _ _ R) as [taken [_ _ _ _ Is _]]. clear R.
  destruct (Is P) as (c0 & b0 & _ & _ & _ & Eb0 & _ & _ & Ee & _).
  rewrite Eb in Eb0. inversion Eb0; subst b0. clear Eb0 Is.
  open_state st. simpl in *. subst l bf tc.
  unfold worker_step. simpl. unfold Flush, Buffered. rewrite Ee, B. simpl.
  eexists. split; [reflexivity|]. simpl. repeat split.
Qed.

Lemma X6_idle_tick_sends_nothing_witness :
  reachable statsite_addr 0 streaming_idle_tick /\
  exists st',
    step streaming_idle_tick (Work (EvTick [WriteFail 0])) = Ok st' /\
    pc (worker st') = STREAM /\ world st' = world streaming_idle_tick.
Proof.
  assert (R : reachable statsite_addr 0 streaming_idle_tick).
  { exists boot, [Work EvStart; Work (EvDial true); Elapse flushInterval].
    split; vm_compute; reflexivity. }
  split; [exact R|].
  destruct (X6_idle_tick_sends_nothing statsite_addr 0 streaming_idle_tick
              [WriteFail 0] (NewWriter 0) R eq_refl eq_refl eq_refl eq_refl)
    as (st' & S & P & _ & _ & W & _).
  exists st'. repeat split; assumption.
Defined.

(** X7. There is no final flush.  When the streaming goroutine observes
    the closed queue, the lines it has taken in the session are what the
    peer has received followed by what the writer buffers; and in no run
    after that step does the peer receive anything more, so the bytes
    still buffered at that moment are never sent. *)
Theorem X7_no_final_flush (a0 : string) (t0 : N) (st st1 : State)
  (rs : list IOResp) (c : nat) (b : Writer) :
  reachable a0 t0 st -> pc (worker st) = STREAM -> closed_signal st ->
  sock (worker st) = Some c -> buffered (worker st) = Some b ->
  step st (Work (EvRecv rs)) = Ok st1 ->
  pc (worker st1) = QUIT /\
  (exists before session,
     history st = before ++ session /\
     received st c ++ buf b = bytes_of_lines session) /\
  forall acts st', run st1 acts = Ok st' -> received st' c = received st c.
Proof.
  intros R P (ch & Eq & Ec & Ei) Es Eb H.
  destruct (reachable_Inv _ _ _ R) as [taken [Iq _ _ _ Is _]].
  destruct (Is P) as (c0 & b0 & before & session & Es0 & Eb0 & _ & _ & _ & _ & Et & Er).
  rewrite Es in Es0. rewrite Eb in Eb0. inversion Es0; inversion Eb0; subst c0 b0.
  rewrite Eq in Iq. destruct Iq as (_ & _ & Hh). rewrite Ei, app_nil_r in Hh.
  assert (Q : pc (worker st1) = QUIT /\ world st1 = world st).
  { clear Is Er R. open_state st. simpl in *. subst l q.
    unfold worker_step in H. simpl in H. rewrite Ei, Ec in H. simpl in H.
    inversion H; subst. split; reflexivity. }
  destruct Q as [Q W]. split; [exact Q|]. split.
  - exists before, session. split; [congruence | exact Er].
  - intros acts st' Hr.
    destruct (run_terminated acts st1 st' (or_introl Q) Hr) as (_ & N & _).
    unfold received. now rewrite N, W.
Qed.

Lemma X7_no_final_flush_witness :
  exists st0 st1,
    run streaming [App gauge_a_b; Work (EvRecv []); App CShutdown] = Ok st0 /\
    reachable statsite_addr 0 st0 /\ closed_signal st0 /\
    step st0 (Work (EvRecv [])) = Ok st1 /\
    buffered (worker st0) =
      Some (mkWriter 0 (list_byte_of_string ("a.b:3.500000|g" ++ LF)%string) false) /\
    forall acts st', run st1 acts = Ok st' -> received st' 0 = [].
Proof.
  eexists. eexists. split; [vm_compute; reflexivity|].
  match goal with |- reachable _ _ ?s /\ _ => set (st0 := s) end.
  assert (R : reachable statsite_addr 0 st0).
  { exists boot, [Work EvStart; Work (EvDial true); App gauge_a_b;
                  Work (EvRecv []); App CShutdown].
    split; vm_compute; reflexivity. }
  assert (C : closed_signal st0) by (eexists; repeat split; reflexivity).
  split; [exact R|]. split; [exact C|]. split; [vm_compute; reflexivity|].
  split; [reflexivity|].
  exact (proj2 (proj2 (X7_no_final_flush statsite_addr 0 st0 _ [] 0 _
                         R eq_refl C eq_refl eq_refl eq_refl))).
Defined.

End MoreStreaming.

(* ------------------------------------------------------------------ *)
(** * More about shutting down                                          *)
(* ------------------------------------------------------------------ *)

Section MoreShutdown.

Lemma step_dialed_mono (st st' : State) (act : Action) :
  step st act = Ok st' ->
  List.length (dialed (world st)) <= List.length (dialed (world st')).
Proof.
  intros H. destruct (step_addr _ _ _ H) as [_ [-> | ->]];
    [|rewrite length_app; simpl]; lia.
Qed.

Lemma run_dialed_mono (acts : list Action) (st st' : State) :
  run st acts = Ok st' ->
  List.length (dialed (world st)) <= List.length (dialed (world st')).
Proof.
  revert st. induction acts as [|act acts IH]; intros st H; simpl in H.
  - inversion H; subst; lia.
  - destruct (step st act) as [st1| |p] eqn:E; try discriminate.
    apply step_dialed_mono in E. apply IH in H. lia.
Qed.

(** X8. The goroutine looks at the queue only inside its loops, so it
    always dials before anything else: in every run that starts with the
    goroutine before its first dial and ends with it elsewhere (streaming,
    waiting or terminated), a dial has been made, also when [Shutdown]
    was called before the goroutine first ran. *)
Theorem X8_dials_before_anything_else (acts : list Action) (st st' : State) :
  pc (worker st) = START \/ pc (worker st) = CONNECT ->
  run st acts = Ok st' ->
  pc (worker st') <> START -> pc (worker st') <> CONNECT ->
  List.length (dialed (world st)) < List.length (dialed (world st')).
Proof.
  revert st. induction acts as [|act acts IH]; intros st P H N1 N2; simpl in H.
  - inversion H; subst. tauto.
  - destruct (step st act) as [st1| |p] eqn:E; try discriminate.
    pose proof (step_dialed_mono _ _ _ E) as M.
    pose proof (run_dialed_mono _ _ _ H) as M'.
    assert (K : ((pc (worker st1) = START \/ pc (worker st1) = CONNECT) /\
                 dialed (world st1) = dialed (world st)) \/
                List.length (dialed (world st)) < List.length (dialed (world st1))).
    { destruct act as [c|e|d].
      - destruct (step_App_frame _ _ _ E) as (-> & -> & _). auto.
      - clear IH H M M'. open_state st. simpl in *.
        destruct P as [-> | ->]; destruct e; worker_cases E; auto;
          right; rewrite length_app; simpl; lia.
      - simpl in E. inversion E; subst. unfold elapse. simpl.
        destruct (ticker_on (worker st) && _); simpl; auto. }
    destruct K as [[P1 D1] | L]; [|lia].
    rewrite <- D1. now apply (IH st1).
Qed.

Lemma X8_dials_before_anything_else_witness :
  (pc (worker shut_at_birth) = START \/ pc (worker shut_at_birth) = CONNECT) /\
  exists st',
    run shut_at_birth [Work EvStart; Work (EvDial true); Work (EvRecv []);
                       Work (EvRecv []); Work EvReturn] = Ok st' /\
    pc (worker st') = DONE /\
    List.length (dialed (world shut_at_birth)) < List.length (dialed (world st')).
Proof.
  split; [left; reflexivity|]. eexists.
  split; [vm_compute; reflexivity|]. split; [reflexivity|].
  apply (X8_dials_before_anything_else
           [Work EvStart; Work (EvDial true); Work (EvRecv []);
            Work (EvRecv []); Work EvReturn] shut_at_birth);
    [left; reflexivity | vm_compute; reflexivity | discriminate | discriminate].
Defined.

(** A receive of a line, streaming or waiting, removes the head of the
    queue and leaves the goroutine streaming or waiting. *)
Lemma recv_line_shape (st st1 : State) (rs : list IOResp) (ch : Chan)
  (m : string) (rest : list string) :
  pc (worker st) = STREAM \/ pc (worker st) = WAIT ->
  metricQueue (sink st) = Some ch -> items ch = m :: rest ->
  step st (Work (EvRecv rs)) = Ok st1 ->
  queued st1 = rest /\ (pc (worker st1) = STREAM \/ pc (worker st1) = WAIT).
Proof.
  intros P Eq Ei H. open_state st. unfold queued. simpl in *. subst q.
  unfold worker_step in H. simpl in H.
  destruct P as [-> | ->]; rewrite Ei in H; simpl in H.
  - destruct bf as [b|]; try discriminate.
    destruct (Write b nw rs (list_byte_of_string m)) as [[[[b' nw'] rs'] f]|];
      try discriminate.
    destruct f; inversion H; subst; simpl; auto.
  - inversion H; subst; simpl; auto.
Qed.

(** From [STREAM] or [WAIT], with the queue closed, the goroutine can
    drain the queue and return. *)
Lemma drain_and_return (a0 : string) (t0 : N) (n : nat) :
  forall st,
  reachable a0 t0 st -> shut_down st ->
  pc (worker st) = STREAM \/ pc (worker st) = WAIT ->
  List.length (queued st) = n ->
  exists acts st',
    run st acts = Ok st' /\ pc (worker st') = DONE /\
    forallb is_work acts = true /\ List.length acts = n + 2.
Proof.
  induction n as [|n IH]; intros st R S P L.
  - destruct (reachable_Inv _ _ _ R) as [taken [Iq _ _ _ _ _]].
    clear R. open_state st. unfold queued, shut_down in *. simpl in *.
    destruct q as [ch|]; [|destruct P; congruence].
    apply length_zero_iff_nil in L.
    exists [Work (EvRecv []); Work EvReturn]. eexists.
    split; [|split; [|split; reflexivity]].
    + simpl. unfold worker_step. simpl.
      destruct P as [-> | ->]; rewrite L, S; simpl; reflexivity.
    + reflexivity.
  - assert (Q : exists ch m rest, metricQueue (sink st) = Some ch /\
                                  items ch = m :: rest).
    { unfold queued in L. destruct (metricQueue (sink st)) as [ch|];
        [|discriminate].
      destruct (items ch) as [|m rest] eqn:Ei; [discriminate|]. eauto. }
    destruct Q as (ch & m & rest & Eq & Ei).
    assert (E1 : exists st1, step st (Work (EvRecv [])) = Ok st1).
    { destruct P as [P | P].
      - apply (streaming_receive_progress a0 t0); auto.
        unfold queued. rewrite Eq, Ei. discriminate.
      - clear R IH. open_state st. simpl in *. subst l q.
        unfold worker_step. simpl. rewrite Ei. simpl. eauto. }
    destruct E1 as [st1 E1].
    destruct (recv_line_shape _ _ _ _ _ _ P Eq Ei E1) as [Q1 P1].
    assert (R1 : reachable a0 t0 st1).
    { apply (reachable_run a0 t0 st st1 [Work (EvRecv [])] R).
      simpl. simpl in E1. now rewrite E1. }
    assert (S1 : shut_down st1) by (eapply step_shut_down; eassumption).
    assert (L1 : List.length (queued st1) = n).
    { unfold queued in L. rewrite Eq, Ei in L. simpl in L. rewrite Q1. lia. }
    destruct (IH st1 R1 S1 P1 L1) as (acts & st' & Hr & D & W & Ln).
    exists (Work (EvRecv []) :: acts), st'.
    split; [|split; [exact D | split; [exact W | simpl; lia]]].
    simpl. simpl in E1. rewrite E1. exact Hr.
Qed.



End MoreShutdown.

(* ------------------------------------------------------------------ *)
(** * More about keys and lines                                         *)
(* ------------------------------------------------------------------ *)

Section MoreFormatting.

Lemma string_app_assoc (a b c : string) :
  ((a ++ b) ++ c)%string = (a ++ b ++ c)%string.
Proof. induction a as [|x a IH]; simpl; [reflexivity | now rewrite IH]. Qed.

Lemma string_app_nil_r (a : string) : (a ++ EmptyString)%string = a.
Proof. induction a as [|x a IH]; simpl; [reflexivity | now rewrite IH]. Qed.

Lemma Map_app (f : ascii -> ascii) (a b : string) :
  Map f (a ++ b)%string = (Map f a ++ Map f b)%string.
Proof. induction a as [|x a IH]; simpl; [reflexivity | now rewrite IH]. Qed.

Lemma underscore_idem (c : ascii) : underscore (underscore c) = underscore c.
Proof.
  destruct (Ascii.eqb_spec c ":") as [->|N1]; [reflexivity|].
  destruct (Ascii.eqb_spec c " ") as [->|N2]; [reflexivity|].
  apply Ascii.eqb_neq in N1, N2.
  assert (E : underscore c = c) by (unfold underscore; now rewrite N1, N2).
  now rewrite !E.
Qed.

Lemma Map_underscore_idem (s : string) :
  Map underscore (Map underscore s) = Map underscore s.
Proof.
  induction s as [|c s IH]; simpl; [reflexivity|].
  now rewrite underscore_idem, IH.
Qed.

Lemma Join_app (a b : list string) (sep : string) :
  a <> [] -> b <> [] ->
  Join (a ++ b) sep = (Join a sep ++ sep ++ Join b sep)%string.
Proof.
  intros Ha Hb. induction a as [|x a IH]; [congruence|].
  destruct a as [|y a].
  - destruct b as [|z b]; [congruence|]. reflexivity.
  - change (Join ((x :: y :: a) ++ b) sep)
      with (x ++ sep ++ Join ((y :: a) ++ b) sep)%string.
    rewrite IH by discriminate.
    change (Join (x :: y :: a) sep) with (x ++ sep ++ Join (y :: a) sep)%string.
    now rewrite !string_app_assoc.
Qed.

(** X10. Flattening composes: the flattened key of two non-empty runs of
    segments put together is the two flattened keys joined by a dot, and
    flattening with labels is flattening the segments followed by the
    label values. *)
Theorem X10_flatten_composes (a b : list string) (labels : list Label) :
  a <> [] -> b <> [] ->
  flattenKey (a ++ b) = (flattenKey a ++ "." ++ flattenKey b)%string /\
  flattenKeyLabels a labels = flattenKey (a ++ map Value labels).
Proof.
  intros Ha Hb. split.
  - rewrite !flattenKey_Map, Join_app, !Map_app by assumption. reflexivity.
  - unfold flattenKeyLabels. now rewrite append_labels.
Qed.

Lemma X10_flatten_composes_witness :
  ["a"] <> [] /\ ["b c"; "d"] <> [] /\
  flattenKey (["a"] ++ ["b c"; "d"]) = "a.b_c.d".
Proof.
  split; [discriminate|]. split; [discriminate|].
  rewrite (proj1 (X10_flatten_composes ["a"] ["b c"; "d"] []
                    ltac:(discriminate) ltac:(discriminate))).
  reflexivity.
Defined.

(** X11. Flattened keys are not unique names.  A key and the one-segment
    key made of its joined text flatten alike (a dot inside a segment is
    not told from a segment boundary); flattening a flattened key changes
    nothing; and two keys whose joined texts differ only where one has a
    colon, a space or an underscore flatten to the same name. *)
Theorem X11_flatten_collisions (parts other : list string) :
  flattenKey [Join parts "."] = flattenKey parts /\
  flattenKey [flattenKey parts] = flattenKey parts /\
  (Map underscore (Join parts ".") = Map underscore (Join other ".") ->
   flattenKey parts = flattenKey other) /\
  (forall s t, flattenKey [s; t] = flattenKey [(s ++ "." ++ t)%string]).
Proof.
  split; [now rewrite !flattenKey_Map|]. split.
  { rewrite (flattenKey_Map [flattenKey parts]). simpl.
    rewrite flattenKey_Map. apply Map_underscore_idem. }
  split.
  { intros E. now rewrite !flattenKey_Map. }
  intros s t. reflexivity.
Qed.

Lemma X11_flatten_collisions_witness :
  Map underscore (Join ["a b"] ".") = Map underscore (Join ["a:b"] ".") /\
  flattenKey ["a b"] = flattenKey ["a:b"].
Proof.
  split; [reflexivity|].
  apply (X11_flatten_collisions ["a b"] ["a:b"]). reflexivity.
Defined.

Lemma split_at_colon_flat (s rest : string) :
  split_at ":" (Map underscore s ++ String ":" rest)%string
  = Some (Map underscore s, rest).
Proof.
  induction s as [|c s IH]; simpl; [reflexivity|].
  destruct (underscore_clean c) as [A _].
  destruct (Ascii.eqb_spec (underscore c) ":"); [contradiction|].
  now rewrite IH.
Qed.

(** X12. The first colon of a formatted line is the separator the sink
    wrote: whatever the key segments held, the flattened key contains no
    colon, so splitting the line at its first colon gives back the
    flattened key and the value field with its suffix. *)
Theorem X12_first_colon_separates (suffix : string) (parts : list string)
  (val : float32) :
  split_at ":" (Sprintf_metric suffix (flattenKey parts) val)
  = Some (flattenKey parts, (fmt_f val ++ "|" ++ suffix ++ LF)%string).
Proof.
  unfold Sprintf_metric. rewrite flattenKey_Map.
  apply (split_at_colon_flat (Join parts ".")).
Qed.

Lemma count_char_app (c : ascii) (a b : string) :
  count_char c (a ++ b)%string = count_char c a + count_char c b.
Proof.
  induction a as [|x a IH]; simpl; [reflexivity|]. rewrite IH. lia.
Qed.

Lemma count_LF_underscore (s : string) :
  count_char LFc (Map underscore s) = count_char LFc s.
Proof.
  induction s as [|c s IH]; simpl; [reflexivity|]. rewrite IH. f_equal.
  unfold underscore.
  destruct (Ascii.eqb_spec c ":") as [->|]; [reflexivity|].
  destruct (Ascii.eqb_spec c " ") as [->|]; reflexivity.
Qed.

Lemma count_LF_Join (parts : list string) :
  count_char LFc (Join parts ".") = list_sum (map (count_char LFc) parts).
Proof.
  induction parts as [|x [|y rest] IH]; simpl in *.
  - reflexivity.
  - lia.
  - rewrite count_char_app. simpl. rewrite IH. reflexivity.
Qed.

Lemma count_LF_digits (s : string) :
  all_digits s = true -> count_char LFc s = 0.
Proof.
  induction s as [|c s IH]; simpl; [reflexivity|]. intros H.
  apply andb_true_iff in H. destruct H as [Hc Hs]. rewrite (IH Hs).
  destruct (Ascii.eqb_spec c LFc) as [->|]; [discriminate | reflexivity].
Qed.

Lemma count_LF_fmt_f (val : float32) : count_char LFc (fmt_f val) = 0.
Proof.
  assert (F : forall neg q, count_char LFc (fmtF neg q) = 0).
  { intros neg q. unfold fmtF. rewrite !count_char_app.
    rewrite (count_LF_digits _ (decimal_all_digits _)).
    rewrite (count_LF_digits _ (fixed_digits_all_digits _ _)).
    destruct neg; reflexivity. }
  destruct val as [s|[|]| |s m e]; simpl; try reflexivity; apply F.
Qed.

(** X13. Line feeds in a key are passed through unescaped.  The text
    queued for one metric holds exactly one line feed more than its key
    segments and its suffix together; with the suffixes the sink uses it
    is therefore a single protocol line only if no segment (or label
    value) contains a line feed. *)
Theorem X13_line_feeds_pass_through (suffix : string) (parts : list string)
  (val : float32) :
  count_char LFc (Sprintf_metric suffix (flattenKey parts) val)
  = list_sum (map (count_char LFc) parts) + count_char LFc suffix + 1.
Proof.
  unfold Sprintf_metric. rewrite !count_char_app, flattenKey_Map.
  rewrite count_LF_underscore, count_LF_Join, count_LF_fmt_f. simpl. lia.
Qed.

(** X14. A finite value smaller in magnitude than half a millionth is
    sent as zero: the six-digit rendering of [m * 2^e] with
    [2 * m * 10^6 < 2^(-e)] is ["0.000000"], or ["-0.000000"] when the
    value is negative. *)
Theorem X14_tiny_values_render_as_zero (s : bool) (m : positive) (e : Z) :
  (e < 0)%Z ->
  (2 * (Npos m * 10 ^ 6) < 2 ^ Z.to_N (- e))%N ->
  fmt_f (S754_finite s m e) = if s then "-0.000000" else "0.000000".
Proof.
  intros He H. simpl. unfold scaled_micro, default_prec.
  replace (Z.to_N e) with 0%N by lia.
  change (N.of_nat 6) with 6%N. rewrite N.pow_0_r, N.mul_1_r.
  set (num := (Npos m * 10 ^ 6)%N) in *. set (den := (2 ^ Z.to_N (- e))%N) in *.
  assert (Q : round_half_even num den = 0%N).
  { unfold round_half_even.
    rewrite N.div_small, N.mod_small by lia.
    destruct (N.ltb_spec den (2 * num)); [lia|].
    destruct (N.eqb_spec (2 * num) den); [lia | reflexivity]. }
  rewrite Q. destruct s; reflexivity.
Qed.

Lemma X14_tiny_values_render_as_zero_witness :
  (-47 < 0)%Z /\
  (2 * (Npos 14073749 * 10 ^ 6) < 2 ^ Z.to_N (- (-47)))%N /\
  fmt_f (S754_finite true 14073749 (-47)) = "-0.000000".
Proof.
  split; [reflexivity|]. split; [reflexivity|].
  apply (X14_tiny_values_render_as_zero true 14073749 (-47)); reflexivity.
Defined.

Lemma digits_value_app (acc : N) (a b : string) :
  digits_value acc (a ++ b)%string = digits_value (digits_value acc a) b.
Proof.
  revert acc. induction a as [|c a IH]; intros acc; simpl; [reflexivity|].
  apply IH.
Qed.

Lemma digit_char_value (d : N) : (N_of_ascii (digit_char d) - 48 = d mod 10)%N.
Proof.
  unfold digit_char.
  assert (H : (d mod 10 < 10)%N) by (apply N.mod_lt; discriminate).
  remember (d mod 10)%N as r eqn:E. clear E d.
  assert (K : r = 0%N \/ r = 1%N \/ r = 2%N \/ r = 3%N \/ r = 4%N \/ r = 5%N \/
              r = 6%N \/ r = 7%N \/ r = 8%N \/ r = 9%N) by lia.
  repeat (destruct K as [K|K]; [subst r; reflexivity|]). subst r; reflexivity.
Qed.

Lemma digits_value_fixed (w : nat) (n : N) :
  digits_value 0 (fixed_digits w n) = (n mod 10 ^ N.of_nat w)%N.
Proof.
  revert n. induction w as [|w IH]; intros n.
  - simpl. now rewrite N.mod_1_r.
  - cbn [fixed_digits]. rewrite digits_value_app, IH. cbn [digits_value].
    rewrite digit_char_value, Nat2N.inj_succ, N.pow_succ_r'.
    rewrite N.Div0.mod_mul_r. lia.
Qed.

Lemma of_uint_acc_value (d : Decimal.uint) (acc : positive) :
  Npos (Pos.of_uint_acc d acc) = digits_value (Npos acc) (NilEmpty.string_of_uint d).
Proof.
  revert acc. induction d; intros acc;
    cbn [NilEmpty.string_of_uint Pos.of_uint_acc digits_value];
    try reflexivity; rewrite IHd; f_equal;
    match goal with
    | |- context [(N_of_ascii ?c - 48)%N] =>
        let v := eval vm_compute in (N_of_ascii c - 48)%N in
        change (N_of_ascii c - 48)%N with v
    end; lia.
Qed.

Lemma of_uint_value (d : Decimal.uint) :
  N.of_uint d = digits_value 0 (NilEmpty.string_of_uint d).
Proof.
  unfold N.of_uint. induction d; simpl; try reflexivity; try exact IHd;
    apply of_uint_acc_value.
Qed.

Lemma digits_value_decimal (n : N) : digits_value 0 (decimal n) = n.
Proof.
  unfold decimal. rewrite <- of_uint_value. apply DecimalN.Unsigned.of_to.
Qed.

Lemma read_micro_fmtF (neg : bool) (q : N) :
  read_micro (fmtF neg q) = Some (neg, q).
Proof.
  unfold read_micro, fmtF.
  set (ip := decimal (q / 10 ^ N.of_nat default_prec)).
  set (fp := fixed_digits default_prec q).
  assert (Hd : all_digits ip = true) by apply decimal_all_digits.
  assert (Hn : String.length ip <> 0) by apply decimal_nonempty.
  assert (Hs : strip_sign ((if neg then "-" else EmptyString) ++ ip ++ "." ++ fp)%string
               = (ip ++ "." ++ fp)%string).
  { destruct neg; [reflexivity|]. simpl. now apply strip_sign_digits. }
  rewrite Hs, split_point_digits by exact Hd.
  assert (Hg : match ((if neg then "-" else EmptyString) ++ ip ++ "." ++ fp)%string with
               | String c _ => (c =? "-")%char
               | EmptyString => false
               end = neg).
  { destruct neg; [reflexivity|]. simpl.
    destruct ip as [|c ip']; [simpl in Hn; congruence|]. simpl in *.
    apply andb_true_iff in Hd. destruct Hd as [Hc _].
    destruct (Ascii.eqb_spec c "-"); [subst c; discriminate | reflexivity]. }
  rewrite Hg. unfold ip, fp.
  rewrite digits_value_decimal, digits_value_fixed. f_equal. f_equal.
  change (N.of_nat default_prec) with 6%N.
  pose proof (N.div_mod q (10 ^ 6)) as E. lia.
Qed.

(** X15. The value field reads back to the correctly rounded number.
    For a finite value [m * 2^e], reading the rendered text as a sign and
    a count of millionths gives the sign of the value and the integer [q]
    nearest to [m * 2^e * 10^6]: the number on the wire differs from the
    exact value by at most half a millionth. *)
Theorem X15_value_reads_back_rounded (s : bool) (m : positive) (e : Z) :
  let num := (Npos m * 10 ^ 6 * 2 ^ Z.to_N e)%N in
  let den := (2 ^ Z.to_N (- e))%N in
  exists q,
    read_micro (fmt_f (S754_finite s m e)) = Some (s, q) /\
    (2 * (q * den) <= 2 * num + den)%N /\
    (2 * num <= 2 * (q * den) + den)%N.
Proof.
  intros num den. exists (scaled_micro m e). split.
  - simpl. apply read_micro_fmtF.
  - apply round_half_even_nearest. apply N.pow_nonzero. discriminate.
Qed.

End MoreFormatting.

(* ------------------------------------------------------------------ *)
(** * The sink factory                                                  *)
(* ------------------------------------------------------------------ *)

Section FactoryFacts.

Import Factory.

Variable url_Parse : string -> URL + GoError.
Variable ParseQuery : string -> Values.
Variable ParseDuration : string -> Duration + GoError.
Variables InmemSink StatsdSink : Type.
Variable NewInmemSink : Duration -> Duration -> InmemSink.
Variable NewStatsdSink : string -> option StatsdSink * option GoError.

Local Abbreviation FromURL :=
  (NewSinkFromURL url_Parse ParseQuery ParseDuration InmemSink StatsdSink
     NewInmemSink NewStatsdSink).
Local Abbreviation InmemFromURL :=
  (NewInmemSinkFromURL ParseQuery ParseDuration InmemSink StatsdSink NewInmemSink).

Lemma registry_lookup_cases (scheme : string) :
  let r := sinkRegistry ParseQuery ParseDuration InmemSink StatsdSink
             NewInmemSink NewStatsdSink in
  (scheme = "statsd" /\
   registry_lookup InmemSink StatsdSink r scheme =
     Some (NewStatsdSinkFromURL InmemSink StatsdSink NewStatsdSink)) \/
  (scheme = "statsite" /\
   registry_lookup InmemSink StatsdSink r scheme =
     Some (NewStatsiteSinkFromURL InmemSink StatsdSink)) \/
  (scheme = "inmem" /\
   registry_lookup InmemSink StatsdSink r scheme =
     Some (NewInmemSinkFromURL ParseQuery ParseDuration InmemSink StatsdSink
             NewInmemSink)) \/
  (scheme <> "statsd" /\ scheme <> "statsite" /\ scheme <> "inmem" /\
   registry_lookup InmemSink StatsdSink r scheme = None).
Proof.
  intros r. unfold r, sinkRegistry. cbn [registry_lookup].
  destruct (String.eqb_spec "statsd" scheme) as [<-|N1]; [left; auto|].
  destruct (String.eqb_spec "statsite" scheme) as [<-|N2]; [right; left; auto|].
  destruct (String.eqb_spec "inmem" scheme) as [<-|N3]; [right; right; left; auto|].
  right; right; right. repeat split; congruence.
Qed.

(** X16. When the factory returns no sink.  [NewSinkFromURL] returns a
    nil sink exactly when the URL does not parse, or its scheme is none
    of [statsd], [statsite], [inmem], or the scheme is [inmem] and its
    [interval] or [retain] parameter is no duration; a URL that does not
    parse gives the parser's error unchanged and an unrecognised scheme
    gives an error that quotes the scheme, with the world untouched. *)
Theorem X16_no_sink_iff (urlStr : string) (w : World) :
  (fst (FromURL urlStr w) = None <->
   (exists err, url_Parse urlStr = inr err) \/
   (exists u, url_Parse urlStr = inl u /\
      ((Scheme u <> "statsd" /\ Scheme u <> "statsite" /\ Scheme u <> "inmem") \/
       (Scheme u = "inmem" /\
        ((exists e, ParseDuration (Values_Get (ParseQuery (RawQuery u)) "interval") = inr e) \/
         (exists e, ParseDuration (Values_Get (ParseQuery (RawQuery u)) "retain") = inr e)))))) /\
  (forall err, url_Parse urlStr = inr err -> FromURL urlStr w = (None, Some err)) /\
  (forall u, url_Parse urlStr = inl u ->
     Scheme u <> "statsd" -> Scheme u <> "statsite" -> Scheme u <> "inmem" ->
     FromURL urlStr w =
       (None, Some (Errorf "cannot create metric sink, unrecognized sink name: %q"
                      [ArgString (Scheme u)]))).
Proof.
  unfold NewSinkFromURL.
  destruct (url_Parse urlStr) as [u|err] eqn:Ep.
  2:{ split; [|split].
      - split; [intros _; left; eauto | reflexivity].
      - intros e He. inversion He; subst. reflexivity.
      - intros u Hu. discriminate. }
  destruct (registry_lookup_cases (Scheme u))
    as [[Es ->] | [[Es ->] | [[Es ->] | (N1 & N2 & N3 & ->)]]].
  - split; [|split; [discriminate | intros u' Hu; inversion Hu; subst; congruence]].
    unfold NewStatsdSinkFromURL. destruct (NewStatsdSink (Host u)) as [s e]. simpl.
    split; [discriminate|].
    intros [[e' He] | (u' & Hu & [(N1 & _) | (E & _)])]; try discriminate;
      inversion Hu; subst; rewrite Es in *; [congruence | discriminate].
  - split; [|split; [discriminate | intros u' Hu; inversion Hu; subst; congruence]].
    unfold NewStatsiteSinkFromURL. simpl.
    split; [discriminate|].
    intros [[e' He] | (u' & Hu & [(_ & N2 & _) | (E & _)])]; try discriminate;
      inversion Hu; subst; rewrite Es in *; [congruence | discriminate].
  - split; [|split; [discriminate | intros u' Hu; inversion Hu; subst; congruence]].
    unfold NewInmemSinkFromURL, Query.
    destruct (ParseDuration (Values_Get (ParseQuery (RawQuery u)) "interval"))
      as [i|e1] eqn:E1.
    + destruct (ParseDuration (Values_Get (ParseQuery (RawQuery u)) "retain"))
        as [r|e2] eqn:E2; simpl.
      * split; [discriminate|].
        intros [[e' He] | (u' & Hu & [(_ & _ & N3) | (_ & [[e He] | [e He]])])];
          try discriminate; inversion Hu; subst; congruence.
      * split; [|reflexivity]. intros _. right. exists u. split; [reflexivity|].
        right. split; [exact Es|]. right. eauto.
    + simpl. split; [|reflexivity]. intros _. right. exists u.
      split; [reflexivity|]. right. split; [exact Es|]. left. eauto.
  - split; [|split; [discriminate|]].
    + simpl. split; [|reflexivity]. intros _. right. exists u.
      split; [reflexivity|]. left. auto.
    + intros u' Hu _ _ _. inversion Hu; subst. reflexivity.
Qed.



End FactoryFacts.

Section FactoryWitnesses.

Import Factory.


End FactoryWitnesses.
